(** * A fixed-capacity object pool: Pool.h and MultisetPool.h

    Shallow embedding of the two [Pool<OBJ, NUM_OBJS>] class templates and of
    the Catch test case that drives them, followed by the properties of the
    design document that can be stated over them.

    Conventions of the embedding.
    - An [OBJ*] is the address it holds, a natural number; [nullptr] is 0.
    - [new OBJ{}] is not modelled as an allocator: the constructor of the
      pool receives the addresses that its [NUM_OBJS] calls to [new] returned,
      in the order of the calls.  The language guarantees that they are
      pairwise distinct and not null ([fresh_addrs]).
    - [std::array<OBJ*, NUM_OBJS>] is a list of length [NUM_OBJS];
      [std::multiset<OBJ*>] is the list of its elements in iteration order,
      that is sorted by address.
    - An iterator is an index; [std::end] is "no index" ([None]).
    - Undefined behaviour is an explicit outcome, [Fault]. *)

From stdpp Require Import base option list sorting gmap.

Abbreviation ptr := nat (only parsing).
Abbreviation nullptr := 0 (only parsing).

(** ** The requirements on the template argument OBJ (Pool.h, lines 9-12) *)

Class Resettable (OBJ : Type) := {
  OBJ_ctor : OBJ;          (* the default constructor, OBJ{} *)
  reset : OBJ → OBJ        (* OBJ::reset(), as a state change of the object *)
}.

(** ** Outcomes *)

Inductive fault :=
  | EndIteratorDeref   (* erase of, or write through, a past-the-end iterator *)
  | NullMemberCall.    (* member function called through a null pointer *)

Inductive result (A : Type) :=
  | Ok (a : A)
  | Fault (f : fault).
Arguments Ok {A} a.
Arguments Fault {A} f.

Global Instance result_ret : MRet result := λ A a, Ok a.
Global Instance result_bind : MBind result := λ A B f r,
  match r with
  | Ok a => f a
  | Fault e => Fault e
  end.

Global Instance fault_eq_dec : EqDecision fault.
Proof. solve_decision. Defined.

(** ** What a client sees: calls and the history of completed calls *)

Inductive call :=
  | Acquire
  | Release (obj : ptr).

Inductive event :=
  | Acquired (r : ptr)      (* acquire() returned r *)
  | Released (obj : ptr).   (* release(obj) returned *)

Global Instance event_eq_dec : EqDecision event.
Proof. solve_decision. Defined.

(** A history lists the completed calls, the most recent one first. *)
Definition history := list event.

(** The loans a client holds after a history: every non-null reference that
    an acquire() returned and that was not passed to release() since. *)
Fixpoint outstanding (h : history) : list ptr :=
  match h with
  | [] => []
  | Acquired r :: h' =>
      if decide (r = nullptr) then outstanding h' else r :: outstanding h'
  | Released obj :: h' => filter (λ r, r ≠ obj) (outstanding h')
  end.

(** The client never asks for more than [N] loans at once: every acquire()
    of the history was called while fewer than [N] loans were outstanding. *)
Fixpoint never_exceeds (N : nat) (h : history) : Prop :=
  match h with
  | [] => True
  | Acquired _ :: h' => length (outstanding h') < N ∧ never_exceeds N h'
  | Released _ :: h' => never_exceeds N h'
  end.

(** The calls of release() of a history that were passed a reference that
    was outstanding at the time, the most recent first. *)
Fixpoint returned_loans (h : history) : list ptr :=
  match h with
  | [] => []
  | Acquired _ :: h' => returned_loans h'
  | Released obj :: h' =>
      if decide (obj ∈ outstanding h') then obj :: returned_loans h'
      else returned_loans h'
  end.

(** The addresses [new] can return for simultaneously live objects. *)
Definition fresh_addrs (addrs : list ptr) : Prop :=
  NoDup addrs ∧ nullptr ∉ addrs.

(** The non-empty slots of a tracking structure. *)
Definition live (l : list ptr) : list ptr := filter (λ p, p ≠ nullptr) l.

(** The number of slots of [l] that hold [a]. *)
Definition holders (a : ptr) (l : list ptr) : nat :=
  length (filter (λ p, p = a) l).

(** ** Pool.h: the array-based pool *)

Module Pool.
Section pool.
Context {OBJ : Type} `{!Resettable OBJ}.

(** The pool object, [_available] and [_inUse], together with the part of
    the program state that its member functions can touch: the OBJ
    instances on the free store, and the calls made to [OBJ::reset()]
    (the address each was made on, the most recent first). *)
Record state := mk {
  _available : list ptr;
  _inUse : list ptr;
  heap : gmap nat OBJ;
  resets : list ptr
}.

(** [Pool()], lines 21-31.  [addrs] are the results of the [new OBJ{}] of
    the first [for_each], in slot order; [NUM_OBJS] is their number. *)
Definition Pool (addrs : list ptr) : state :=
  {| _available := addrs;
     _inUse := replicate (length addrs) nullptr;
     heap := list_to_map ((λ a, (a, OBJ_ctor)) <$> addrs);
     resets := [] |}.

(** [acquire()], lines 34-69. *)
Definition acquire (s : state) : result (ptr * state) :=
  match list_find (λ mem, mem ≠ nullptr) (_available s) with
  | None => Ok (nullptr, s)
  | Some (i, mem) =>
      let available' := <[i := nullptr]> (_available s) in
      match list_find (λ p, p = nullptr) (_inUse s) with
      | None => Fault EndIteratorDeref
      | Some (j, _) =>
          Ok (mem, {| _available := available';
                      _inUse := <[j := mem]> (_inUse s);
                      heap := heap s;
                      resets := resets s |})
      end
  end.

(** [obj->reset()], line 92. *)
Definition call_reset (obj : ptr) (s : state) : result state :=
  if decide (obj = nullptr) then Fault NullMemberCall
  else Ok {| _available := _available s;
             _inUse := _inUse s;
             heap := alter reset obj (heap s);
             resets := obj :: resets s |}.

(** Lines 96-107 of [release]: [iter] is the slot [i] of [_inUse] and
    holds [mem]. *)
Definition mark_available (i : nat) (mem : ptr) (s : state) : result state :=
  let inUse' := <[i := nullptr]> (_inUse s) in
  match list_find (λ p, p = nullptr) (_available s) with
  | None => Fault EndIteratorDeref
  | Some (j, _) =>
      Ok {| _available := <[j := mem]> (_available s);
            _inUse := inUse';
            heap := heap s;
            resets := resets s |}
  end.

(** [release(obj)], lines 72-111. *)
Definition release (obj : ptr) (s : state) : result state :=
  match list_find (λ p, p = obj) (_inUse s) with
  | None => Ok s
  | Some (i, mem) => s1 ← call_reset obj s; mark_available i mem s1
  end.

(** One call of a client. *)
Definition step (c : call) (s : state) : result (event * state) :=
  match c with
  | Acquire => '(r, s') ← acquire s; mret (Acquired r, s')
  | Release obj => s' ← release obj s; mret (Released obj, s')
  end.

(** A sequence of calls, in call order; the history comes out most recent
    first, on top of [h]. *)
Fixpoint run (cs : list call) (h : history) (s : state)
  : result (history * state) :=
  match cs with
  | [] => Ok (h, s)
  | c :: cs' => '(e, s') ← step c s; run cs' (e :: h) s'
  end.

(** [n] calls of acquire() in a row; the results in call order. *)
Fixpoint acquire_n (n : nat) (s : state) : result (list ptr * state) :=
  match n with
  | 0 => Ok ([], s)
  | S n' => '(r, s1) ← acquire s; '(rs, s2) ← acquire_n n' s1; mret (r :: rs, s2)
  end.

(** The states a pool constructed over [addrs] can be in, with the history
    of the calls that led there. *)
Inductive reaches (addrs : list ptr) : history → state → Prop :=
  | reaches_Pool : reaches addrs [] (Pool addrs)
  | reaches_acquire h s r s' :
      reaches addrs h s → acquire s = Ok (r, s') →
      reaches addrs (Acquired r :: h) s'
  | reaches_release h s obj s' :
      reaches addrs h s → release obj s = Ok s' →
      reaches addrs (Released obj :: h) s'.

End pool.
Arguments state OBJ : clear implicits.
End Pool.

(** ** MultisetPool.h: the multiset-based pool *)

(** [std::multiset<OBJ*>::insert]: the new element goes after the elements
    that do not compare greater (the upper bound of its equal range). *)
Fixpoint multiset_insert (x : ptr) (l : list ptr) : list ptr :=
  match l with
  | [] => [x]
  | y :: l' => if decide (x < y) then x :: l else y :: multiset_insert x l'
  end.

(** [std::multiset<OBJ*>::erase(iter)], [iter] at position [i]. *)
Definition multiset_erase (i : nat) (l : list ptr) : list ptr := delete i l.

Module MultisetPool.
Section pool.
Context {OBJ : Type} `{!Resettable OBJ}.

(** As for the array-based pool, with [_available] and [_inUse] in the
    iteration order of the multisets. *)
Record state := mk {
  _available : list ptr;
  _inUse : list ptr;
  heap : gmap nat OBJ;
  resets : list ptr
}.

(** [Pool()], lines 21-30: one round of the loop per element of [addrs]. *)
Definition Pool (addrs : list ptr) : state :=
  {| _available := foldl (λ m a, multiset_insert a m) [] addrs;
     _inUse := foldl (λ m _, multiset_insert nullptr m) [] addrs;
     heap := list_to_map ((λ a, (a, OBJ_ctor)) <$> addrs);
     resets := [] |}.

(** [acquire()], lines 33-68. *)
Definition acquire (s : state) : result (ptr * state) :=
  match list_find (λ mem, mem ≠ nullptr) (_available s) with
  | None => Ok (nullptr, s)
  | Some (i, mem) =>
      let available' :=
        multiset_insert nullptr (multiset_erase i (_available s)) in
      match list_find (λ p, p = nullptr) (_inUse s) with
      | None => Fault EndIteratorDeref
      | Some (j, _) =>
          Ok (mem, {| _available := available';
                      _inUse := multiset_insert mem (multiset_erase j (_inUse s));
                      heap := heap s;
                      resets := resets s |})
      end
  end.

(** [obj->reset()], line 91. *)
Definition call_reset (obj : ptr) (s : state) : result state :=
  if decide (obj = nullptr) then Fault NullMemberCall
  else Ok {| _available := _available s;
             _inUse := _inUse s;
             heap := alter reset obj (heap s);
             resets := obj :: resets s |}.

(** Lines 95-106 of [release]: [iter] is at position [i] of [_inUse] and
    holds [mem]. *)
Definition mark_available (i : nat) (mem : ptr) (s : state) : result state :=
  let inUse' := multiset_insert nullptr (multiset_erase i (_inUse s)) in
  match list_find (λ p, p = nullptr) (_available s) with
  | None => Fault EndIteratorDeref
  | Some (j, _) =>
      Ok {| _available := multiset_insert mem (multiset_erase j (_available s));
            _inUse := inUse';
            heap := heap s;
            resets := resets s |}
  end.

(** [release(obj)], lines 71-109. *)
Definition release (obj : ptr) (s : state) : result state :=
  match list_find (λ p, p = obj) (_inUse s) with
  | None => Ok s
  | Some (i, mem) => s1 ← call_reset obj s; mark_available i mem s1
  end.

(** One call of a client, a sequence of calls, and the reachable states, as
    for the array-based pool. *)
Definition step (c : call) (s : state) : result (event * state) :=
  match c with
  | Acquire => '(r, s') ← acquire s; mret (Acquired r, s')
  | Release obj => s' ← release obj s; mret (Released obj, s')
  end.

Fixpoint run (cs : list call) (h : history) (s : state)
  : result (history * state) :=
  match cs with
  | [] => Ok (h, s)
  | c :: cs' => '(e, s') ← step c s; run cs' (e :: h) s'
  end.

Inductive reaches (addrs : list ptr) : history → state → Prop :=
  | reaches_Pool : reaches addrs [] (Pool addrs)
  | reaches_acquire h s r s' :
      reaches addrs h s → acquire s = Ok (r, s') →
      reaches addrs (Acquired r :: h) s'
  | reaches_release h s obj s' :
      reaches addrs h s → release obj s = Ok s' →
      reaches addrs (Released obj :: h) s'.

End pool.
Arguments state OBJ : clear implicits.
End MultisetPool.

(** ** StackVsHeapAlloc.cpp: the element type and the test case *)

(** [BigObject], lines 9-24: [byteArray] as the function from index to
    char, a char as its code. *)
Record BigObject := { byteArray : nat → nat }.

Definition setFirstChar (c : nat) (o : BigObject) : BigObject :=
  {| byteArray := λ i, if decide (i = 0) then c else byteArray o i |}.

Global Instance BigObject_resettable : Resettable BigObject := {|
  OBJ_ctor := {| byteArray := λ _, 0 |};
  reset := λ o, o
|}.

(** [TEST_CASE("Allocations/Deallocations")], lines 26-46, over a pool just
    constructed: the outcomes of its REQUIREs, in order. *)
Definition TEST_CASE_Allocations (objPool : Pool.state BigObject)
  : result (list bool) :=
  '(obj1, objPool) ← Pool.acquire objPool;
  '(obj2, objPool) ← Pool.acquire objPool;
  objPool ← Pool.release obj1 objPool;
  '(obj3, objPool) ← Pool.acquire objPool;
  '(obj4, objPool) ← Pool.acquire objPool;
  objPool ← Pool.release obj2 objPool;
  '(obj5, objPool) ← Pool.acquire objPool;
  mret [bool_decide (obj1 ≠ nullptr); bool_decide (obj2 ≠ nullptr);
        bool_decide (obj3 = obj1); bool_decide (obj4 = nullptr);
        bool_decide (obj5 = obj2)].

(** The call sequence of the capacity-2 scenario of the design document;
    the five references it obtains, a1 to a5. *)
Definition scenario_capacity2 {OBJ} `{!Resettable OBJ} (s : Pool.state OBJ)
  : result (ptr * ptr * ptr * ptr * ptr) :=
  '(a1, s) ← Pool.acquire s;
  '(a2, s) ← Pool.acquire s;
  '(a3, s) ← Pool.acquire s;
  s ← Pool.release a1 s;
  '(a4, s) ← Pool.acquire s;
  s ← Pool.release a2 s;
  '(a5, s) ← Pool.acquire s;
  mret (a1, a2, a3, a4, a5).

(** States of the pool of the test case, over instances at the addresses 1
    and 2: after one acquire(), after two, and after acquire(), release(1),
    acquire(); and the first of them for the multiset-based pool. *)
Definition one_lent : Pool.state BigObject :=
  Pool.mk [nullptr; 2] [1; nullptr] (Pool.heap (Pool.Pool [1; 2])) [].

Definition all_lent : Pool.state BigObject :=
  Pool.mk [nullptr; nullptr] [1; 2] (Pool.heap (Pool.Pool [1; 2])) [].

Definition lent_again : Pool.state BigObject :=
  Pool.mk [nullptr; 2] [1; nullptr]
    (alter reset 1 (Pool.heap (Pool.Pool [1; 2]))) [1].

Definition multiset_one_lent : MultisetPool.state BigObject :=
  MultisetPool.mk [nullptr; 2] [nullptr; 1]
    (MultisetPool.heap (MultisetPool.Pool [1; 2])) [].

(** Further states over the addresses 1 and 2: the array-based pool after
    acquire(), acquire(), release(nullptr), release(1), acquire(); the
    multiset-based pool after acquire(), release(1), acquire(). *)
Definition all_lent_again : Pool.state BigObject :=
  Pool.mk [nullptr; nullptr] [1; 2]
    (alter reset 1 (Pool.heap (Pool.Pool [1; 2]))) [1].

Definition multiset_lent_again : MultisetPool.state BigObject :=
  MultisetPool.mk [nullptr; 2] [nullptr; 1]
    (alter reset 1 (MultisetPool.heap (MultisetPool.Pool [1; 2]))) [1].

(** States over instances constructed at the addresses 2 and 1, in this
    order, with instance 2 lent and instance 1 available: the array-based
    pool after acquire(); the multiset-based pool after acquire(),
    acquire(), release(1). *)
Definition array_2_lent : Pool.state BigObject :=
  Pool.mk [nullptr; 1] [2; nullptr] (Pool.heap (Pool.Pool [2; 1])) [].

Definition multiset_2_lent : MultisetPool.state BigObject :=
  MultisetPool.mk [nullptr; 1] [nullptr; 2]
    (alter reset 1 (MultisetPool.heap (MultisetPool.Pool [2; 1]))) [1].

(** ** The bookkeeping invariant, on the two tracking structures

    [addrs] are the instances the pool owns, [h] the history of the calls. *)
Record tracked (addrs : list ptr) (h : history)
    (available inUse : list ptr) : Prop := {
  tracked_available_length : length available = length addrs;
  tracked_inUse_length : length inUse = length addrs;
  tracked_split : live available ++ live inUse ≡ₚ addrs;
  tracked_loans : live inUse ≡ₚ outstanding h
}.

Definition Pool_tracked {OBJ} (addrs : list ptr) (h : history)
    (s : Pool.state OBJ) : Prop :=
  tracked addrs h (Pool._available s) (Pool._inUse s).

Definition MultisetPool_tracked {OBJ} (addrs : list ptr) (h : history)
    (s : MultisetPool.state OBJ) : Prop :=
  tracked addrs h (MultisetPool._available s) (MultisetPool._inUse s).

Global Instance fresh_addrs_dec addrs : Decision (fresh_addrs addrs).
Proof. unfold fresh_addrs. apply _. Defined.

(** ** The rest of the three files: the destructors, acquisitions in a row
    on the multiset-based pool, the test case over the multiset-based pool,
    and the pool loop of measurePerformance

    What is undefined in these is [None]. *)

(** [std::default_delete<OBJ>()(p)], that is [delete p]: nothing for
    [nullptr], the end of the object at [p] when there is one, undefined
    otherwise (a second delete, or no object of the free store). *)
Definition default_delete {OBJ} (p : ptr) (hp : gmap nat OBJ)
  : option (gmap nat OBJ) :=
  if decide (p = nullptr) then Some hp
  else match hp !! p with
       | Some _ => Some (delete p hp)
       | None => None
       end.

(** [std::for_each(begin, end, std::default_delete<OBJ>())]. *)
Fixpoint for_each_delete {OBJ} (l : list ptr) (hp : gmap nat OBJ)
  : option (gmap nat OBJ) :=
  match l with
  | [] => Some hp
  | p :: l' => hp' ← default_delete p hp; for_each_delete l' hp'
  end.

(** [~Pool()], Pool.h lines 113-122: the free store it leaves behind. *)
Definition Pool_dtor {OBJ} (s : Pool.state OBJ) : option (gmap nat OBJ) :=
  hp ← for_each_delete (Pool._available s) (Pool.heap s);
  for_each_delete (Pool._inUse s) hp.

(** [~Pool()], MultisetPool.h lines 111-120. *)
Definition MultisetPool_dtor {OBJ} (s : MultisetPool.state OBJ)
  : option (gmap nat OBJ) :=
  hp ← for_each_delete (MultisetPool._available s) (MultisetPool.heap s);
  for_each_delete (MultisetPool._inUse s) hp.

(** [n] calls of acquire() in a row on the multiset-based pool; the results
    in call order. *)
Fixpoint MultisetPool_acquire_n {OBJ} `{!Resettable OBJ} (n : nat)
    (s : MultisetPool.state OBJ) : result (list ptr * MultisetPool.state OBJ) :=
  match n with
  | 0 => Ok ([], s)
  | S n' =>
      '(r, s1) ← MultisetPool.acquire s;
      '(rs, s2) ← MultisetPool_acquire_n n' s1;
      mret (r :: rs, s2)
  end.

(** The test case with line 7 in place of line 6, that is over the pool of
    MultisetPool.h. *)
Definition TEST_CASE_Allocations_multiset
    (objPool : MultisetPool.state BigObject) : result (list bool) :=
  '(obj1, objPool) ← MultisetPool.acquire objPool;
  '(obj2, objPool) ← MultisetPool.acquire objPool;
  objPool ← MultisetPool.release obj1 objPool;
  '(obj3, objPool) ← MultisetPool.acquire objPool;
  '(obj4, objPool) ← MultisetPool.acquire objPool;
  objPool ← MultisetPool.release obj2 objPool;
  '(obj5, objPool) ← MultisetPool.acquire objPool;
  mret [bool_decide (obj1 ≠ nullptr); bool_decide (obj2 ≠ nullptr);
        bool_decide (obj3 = obj1); bool_decide (obj4 = nullptr);
        bool_decide (obj5 = obj2)].

(** A call that returned, or nothing. *)
Definition defined {A} (r : result A) : option A :=
  match r with
  | Ok a => Some a
  | Fault _ => None
  end.

(** [processObj], StackVsHeapAlloc.cpp lines 114-118: [obj->setFirstChar('a')],
    defined when [obj] is the address of a BigObject. *)
Definition processObj (obj : ptr) (hp : gmap nat BigObject)
  : option (gmap nat BigObject) :=
  match hp !! obj with
  | Some o => Some (<[obj := setFirstChar 97 o]> hp)
  | None => None
  end.

(** The loop of lines 100-105 of [measurePerformance], [n] rounds of it:
    acquire() and [processObj], with no release(). *)
Fixpoint pool_allocations (n : nat) (objPool : Pool.state BigObject)
  : option (Pool.state BigObject) :=
  match n with
  | 0 => Some objPool
  | S n' =>
      '(poolObj, objPool) ← defined (Pool.acquire objPool);
      hp ← processObj poolObj (Pool.heap objPool);
      pool_allocations n'
        (Pool.mk (Pool._available objPool) (Pool._inUse objPool) hp
                 (Pool.resets objPool))
  end.

(** The free store after [processObj] on each address of [l], in order. *)
Definition processed (l : list ptr) (hp : gmap nat BigObject)
  : gmap nat BigObject :=
  foldl (λ hp a, alter (setFirstChar 97) a hp) hp l.

(** * Properties *)

(** ** Slots of a tracking structure *)

Lemma insert_Permutation (l : list nat) i v :
  i < length l → <[i := v]> l ≡ₚ v :: delete i l.
Proof.
  intros Hi. rewrite insert_take_drop, delete_take_drop by done.
  by rewrite Permutation_middle.
Qed.

Lemma multiset_insert_Permutation x l : multiset_insert x l ≡ₚ x :: l.
Proof.
  induction l as [|y l IH]; simpl; [done|].
  case_decide; [done|]. by rewrite IH, Permutation_swap.
Qed.

(** Overwriting one slot: what the old and the new structure hold differs
    by the old and the new content of that slot only. *)
Lemma live_replace (l l' : list nat) i x v :
  l !! i = Some x → l' ≡ₚ v :: delete i l →
  live [x] ++ live l' ≡ₚ live [v] ++ live l.
Proof.
  intros Hx Hl'. unfold live.
  pose proof (delete_Permutation l i x Hx) as Hl.
  trans (filter (λ p, p ≠ nullptr) [x] ++ filter (λ p, p ≠ nullptr) (v :: delete i l)).
  { by rewrite Hl'. }
  trans (filter (λ p, p ≠ nullptr) [v] ++ filter (λ p, p ≠ nullptr) (x :: delete i l)).
  2: { by rewrite <- Hl. }
  rewrite !(filter_cons _ _ (delete i l)), !filter_cons, !filter_nil.
  repeat case_decide; simpl; try done. apply Permutation_swap.
Qed.

Lemma live_take (l l' : list nat) i x :
  l !! i = Some x → x ≠ nullptr → l' ≡ₚ nullptr :: delete i l →
  live l ≡ₚ x :: live l'.
Proof.
  intros Hx Hnz Hl'. pose proof (live_replace l l' i x nullptr Hx Hl') as HP.
  unfold live in *. rewrite !filter_cons, !filter_nil in HP.
  repeat case_decide; try done; simpl in HP; by rewrite HP.
Qed.

Lemma live_put (l l' : list nat) j x :
  l !! j = Some nullptr → x ≠ nullptr → l' ≡ₚ x :: delete j l →
  live l' ≡ₚ x :: live l.
Proof.
  intros Hx Hnz Hl'. pose proof (live_replace l l' j nullptr x Hx Hl') as HP.
  unfold live in *. rewrite !filter_cons, !filter_nil in HP.
  repeat case_decide; try done; simpl in HP; by rewrite HP.
Qed.

Lemma replace_length (l l' : list nat) i x v :
  l !! i = Some x → l' ≡ₚ v :: delete i l → length l' = length l.
Proof.
  intros Hx Hl'. rewrite Hl'. simpl. rewrite length_delete by eauto.
  apply lookup_lt_Some in Hx. lia.
Qed.

Lemma live_replicate_null n : live (replicate n nullptr) = [].
Proof.
  induction n as [|n IH]; [done|]. unfold live in *. simpl.
  rewrite filter_cons_False by (intros ?; done). done.
Qed.

Lemma live_all (l : list nat) : nullptr ∉ l → live l = l.
Proof.
  induction l as [|x l IH]; [done|]. rewrite not_elem_of_cons. intros [? ?].
  unfold live in *. rewrite filter_cons_True by done. by rewrite IH.
Qed.

(** A structure with fewer non-empty slots than slots has an empty slot,
    and the scan for [nullptr] finds the first of them. *)
Lemma find_null_Some (l : list nat) :
  length (live l) < length l →
  ∃ j, list_find (λ p, p = nullptr) l = Some (j, nullptr).
Proof.
  intros Hlt.
  destruct (list_find (λ p, p = nullptr) l) as [[j x]|] eqn:Hf.
  - apply list_find_Some in Hf as Hf'. destruct Hf' as (_ & -> & _). eauto.
  - apply list_find_None in Hf. unfold live in Hlt.
    assert (filter (λ p, p ≠ nullptr) l = l) as Heq.
    { clear Hlt. induction Hf as [|x l Hx Hf IH]; [done|].
      rewrite filter_cons_True by done. by rewrite IH. }
    rewrite Heq in Hlt. lia.
Qed.

Lemma find_live_None (l : list nat) :
  list_find (λ p, p ≠ nullptr) l = None ↔ live l = [].
Proof.
  rewrite list_find_None. unfold live. split.
  - induction 1 as [|x l Hx Hf IH]; [done|]. by rewrite filter_cons_False.
  - intros Hnil. apply Forall_forall. intros x Hx HP.
    by eapply (filter_nil_not_elem_of (λ p, p ≠ nullptr)).
Qed.

Lemma find_live_Some (l : list nat) i x :
  list_find (λ p, p ≠ nullptr) l = Some (i, x) →
  l !! i = Some x ∧ x ≠ nullptr ∧ x ∈ live l.
Proof.
  intros (Hi & Hx & _)%list_find_Some. split_and!; [done..|].
  apply list_elem_of_filter. split; [done|]. by eapply list_elem_of_lookup_2.
Qed.

Lemma holders_live a (l : list nat) :
  a ≠ nullptr → holders a (live l) = holders a l.
Proof.
  intros Ha. unfold holders, live. f_equal.
  rewrite list_filter_filter. apply list_filter_iff. intros x.
  split; [by intros [? ?]|]. intros ->. done.
Qed.

Lemma holders_not_elem_of a (l : list nat) : a ∉ l → holders a l = 0.
Proof.
  unfold holders. induction l as [|x l IH]; [done|].
  rewrite not_elem_of_cons. intros [Hne Hl].
  rewrite filter_cons_False by (intros ->; done). auto.
Qed.

Lemma holders_NoDup a (l : list nat) :
  NoDup l → a ∈ l → holders a l = 1.
Proof.
  induction 1 as [|x l Hx Hnd IH]; [by intros ?%elem_of_nil|].
  intros [->|Hin]%elem_of_cons; unfold holders in *.
  - rewrite filter_cons_True by done. simpl. f_equal.
    by apply holders_not_elem_of.
  - rewrite filter_cons_False by (intros ->; done). auto.
Qed.

Lemma holders_app a (l k : list nat) :
  holders a (l ++ k) = holders a l + holders a k.
Proof. unfold holders. by rewrite filter_app, length_app. Qed.

Lemma holders_Permutation a (l k : list nat) :
  l ≡ₚ k → holders a l = holders a k.
Proof. intros Hlk. unfold holders. by rewrite Hlk. Qed.

(** ** The bookkeeping invariant is kept by every update of the two
    structures that the member functions make *)

Section tracked.
Context (addrs : list nat) (Hfresh : fresh_addrs addrs).

Lemma tracked_init available :
  available ≡ₚ addrs → ∀ inUse, inUse ≡ₚ replicate (length addrs) nullptr →
  tracked addrs [] available inUse.
Proof.
  intros Hav inUse Hiu. destruct Hfresh as [Hnd Hnull].
  assert (live inUse = []) as Hlive.
  { apply Permutation_nil_r. unfold live. rewrite Hiu.
    by rewrite <- (live_replicate_null (length addrs)). }
  split.
  - by rewrite Hav.
  - by rewrite Hiu, length_replicate.
  - rewrite Hlive, app_nil_r. unfold live. rewrite Hav.
    fold (live addrs). by rewrite live_all.
  - by rewrite Hlive.
Qed.

Lemma tracked_live_NoDup h available inUse :
  tracked addrs h available inUse → NoDup (live available ++ live inUse).
Proof. intros [_ _ Hsplit _]. rewrite Hsplit. apply Hfresh. Qed.

Lemma tracked_count h available inUse :
  tracked addrs h available inUse →
  length (live available) + length (live inUse) = length addrs.
Proof. intros [_ _ Hsplit _]. by rewrite <- Hsplit, length_app. Qed.

Lemma tracked_outstanding_NoDup h available inUse :
  tracked addrs h available inUse → NoDup (outstanding h).
Proof.
  intros Ht. rewrite <- (tracked_loans _ _ _ _ Ht).
  by apply tracked_live_NoDup, NoDup_app in Ht as (_ & _ & ?).
Qed.

(** An instance is available: [_inUse] has an empty slot. *)
Lemma tracked_inUse_null h available inUse i mem :
  tracked addrs h available inUse →
  available !! i = Some mem → mem ≠ nullptr →
  ∃ j, list_find (λ p, p = nullptr) inUse = Some (j, nullptr).
Proof.
  intros Ht Hi Hmem. apply find_null_Some.
  pose proof (tracked_count _ _ _ Ht) as Hcount.
  rewrite (tracked_inUse_length _ _ _ _ Ht).
  assert (mem ∈ live available) as Hin.
  { apply list_elem_of_filter. split; [done|]. by eapply list_elem_of_lookup_2. }
  destruct (live available); [by apply elem_of_nil in Hin|]. simpl in *. lia.
Qed.

(** An instance is lent: [_available] has an empty slot. *)
Lemma tracked_available_null h available inUse i obj :
  tracked addrs h available inUse →
  inUse !! i = Some obj → obj ≠ nullptr →
  ∃ j, list_find (λ p, p = nullptr) available = Some (j, nullptr).
Proof.
  intros Ht Hi Hobj. apply find_null_Some.
  pose proof (tracked_count _ _ _ Ht) as Hcount.
  rewrite (tracked_available_length _ _ _ _ Ht).
  assert (obj ∈ live inUse) as Hin.
  { apply list_elem_of_filter. split; [done|]. by eapply list_elem_of_lookup_2. }
  destruct (live inUse); [by apply elem_of_nil in Hin|]. simpl in *. lia.
Qed.

(** The update of a successful acquire(). *)
Lemma tracked_acquire h available inUse i mem j available' inUse' :
  tracked addrs h available inUse →
  available !! i = Some mem → mem ≠ nullptr →
  inUse !! j = Some nullptr →
  available' ≡ₚ nullptr :: delete i available →
  inUse' ≡ₚ mem :: delete j inUse →
  tracked addrs (Acquired mem :: h) available' inUse'.
Proof.
  intros Ht Hi Hmem Hj Hav Hiu.
  pose proof (live_take _ _ _ _ Hi Hmem Hav) as Htake.
  pose proof (live_put _ _ _ _ Hj Hmem Hiu) as Hput.
  destruct Ht as [Hla Hli Hsplit Hloans]. split.
  - by rewrite (replace_length _ _ _ _ _ Hi Hav).
  - by rewrite (replace_length _ _ _ _ _ Hj Hiu).
  - rewrite Hput, <- Hsplit, Htake. simpl. by rewrite <- Permutation_middle.
  - simpl. rewrite decide_False by done. by rewrite Hput, Hloans.
Qed.

(** acquire() on an exhausted pool. *)
Lemma tracked_exhausted h available inUse :
  tracked addrs h available inUse →
  tracked addrs (Acquired nullptr :: h) available inUse.
Proof. intros [? ? ? ?]. by split. Qed.

(** The update of a release() of a lent instance. *)
Lemma tracked_release h available inUse i obj j available' inUse' :
  tracked addrs h available inUse →
  inUse !! i = Some obj → obj ≠ nullptr →
  available !! j = Some nullptr →
  inUse' ≡ₚ nullptr :: delete i inUse →
  available' ≡ₚ obj :: delete j available →
  tracked addrs (Released obj :: h) available' inUse'.
Proof.
  intros Ht Hi Hobj Hj Hiu Hav.
  pose proof (live_take _ _ _ _ Hi Hobj Hiu) as Htake.
  pose proof (live_put _ _ _ _ Hj Hobj Hav) as Hput.
  pose proof (tracked_live_NoDup _ _ _ Ht) as Hnd.
  destruct Ht as [Hla Hli Hsplit Hloans]. split.
  - by rewrite (replace_length _ _ _ _ _ Hj Hav).
  - by rewrite (replace_length _ _ _ _ _ Hi Hiu).
  - rewrite Hput, <- Hsplit, Htake. simpl. by rewrite Permutation_middle.
  - simpl. rewrite <- Hloans, Htake.
    rewrite filter_cons_False by (intros ?; done).
    apply NoDup_app in Hnd as (_ & _ & Hnd). rewrite Htake in Hnd.
    apply NoDup_cons in Hnd as [Hnotin _].
    clear -Hnotin. induction (live inUse') as [|x l IH]; [done|].
    apply not_elem_of_cons in Hnotin as [? ?].
    rewrite filter_cons_True by done. by rewrite <- IH.
Qed.

(** release() of a reference that no slot of [_inUse] holds. *)
Lemma tracked_ignored h available inUse obj :
  tracked addrs h available inUse → obj ∉ inUse →
  tracked addrs (Released obj :: h) available inUse.
Proof.
  intros [Hla Hli Hsplit Hloans] Hobj. split; [done..|].
  simpl. rewrite <- Hloans.
  assert (obj ∉ live inUse) as Hnotin.
  { intros [_ ?]%list_elem_of_filter. done. }
  clear -Hnotin. induction (live inUse) as [|x l IH]; [done|].
  apply not_elem_of_cons in Hnotin as [? ?].
  rewrite filter_cons_True by done. by rewrite <- IH.
Qed.

End tracked.

(** ** Pool.h: what acquire() and release() do in a tracked state *)

Section array_pool.
Context {OBJ : Type} `{!Resettable OBJ}.
Context (addrs : list nat) (Hfresh : fresh_addrs addrs).
Implicit Types (s : Pool.state OBJ) (h : history).

(** acquire() either finds nothing in [_available] and returns [nullptr],
    or moves the first instance of [_available] to the first empty slot
    of [_inUse]; it never reaches the end of [_inUse]. *)
Lemma Pool_acquire_cases h s :
  Pool_tracked addrs h s →
  (live (Pool._available s) = [] ∧ Pool.acquire s = Ok (nullptr, s)) ∨
  (∃ i mem j,
      list_find (λ p, p ≠ nullptr) (Pool._available s) = Some (i, mem) ∧
      list_find (λ p, p = nullptr) (Pool._inUse s) = Some (j, nullptr) ∧
      Pool.acquire s =
        Ok (mem, Pool.mk (<[i := nullptr]> (Pool._available s))
                             (<[j := mem]> (Pool._inUse s))
                             (Pool.heap s) (Pool.resets s))).
Proof.
  intros Ht. unfold Pool.acquire.
  destruct (list_find _ (Pool._available s)) as [[i mem]|] eqn:Hfind.
  - right. apply find_live_Some in Hfind as Hmem. destruct Hmem as (Hi & Hmem & _).
    destruct (tracked_inUse_null addrs _ _ _ _ _ Ht Hi Hmem) as [j Hj].
    exists i, mem, j. by rewrite Hj.
  - left. by apply find_live_None in Hfind.
Qed.

(** release(obj) ignores a reference that no slot of [_inUse] holds, calls
    reset() through the null pointer when [obj] is null and [_inUse] has an
    empty slot, and otherwise resets the instance and moves it to the first
    empty slot of [_available], which exists. *)
Lemma Pool_release_cases h s obj :
  Pool_tracked addrs h s →
  ((obj ∉ Pool._inUse s) ∧ Pool.release obj s = Ok s) ∨
  (obj = nullptr ∧ obj ∈ Pool._inUse s ∧
     Pool.release obj s = Fault NullMemberCall) ∨
  (obj ≠ nullptr ∧ ∃ i j,
      list_find (λ p, p = obj) (Pool._inUse s) = Some (i, obj) ∧
      list_find (λ p, p = nullptr) (Pool._available s) = Some (j, nullptr) ∧
      Pool.release obj s =
        Ok (Pool.mk (<[j := obj]> (Pool._available s))
                        (<[i := nullptr]> (Pool._inUse s))
                        (alter reset obj (Pool.heap s))
                        (obj :: Pool.resets s))).
Proof.
  intros Ht. unfold Pool.release.
  destruct (list_find _ (Pool._inUse s)) as [[i mem]|] eqn:Hfind.
  - apply list_find_Some in Hfind as Hf. destruct Hf as (Hi & -> & _).
    right. unfold Pool.call_reset. destruct (decide (obj = nullptr)) as [->|Hobj].
    + left. split_and!; [done| |done]. by eapply list_elem_of_lookup_2.
    + right. split; [done|].
      destruct (tracked_available_null addrs _ _ _ _ _ Ht Hi Hobj) as [j Hj].
      exists i, j. split_and!; [done..|].
      simpl. unfold Pool.mark_available. simpl. by rewrite Hj.
  - left. split; [|done]. apply list_find_None in Hfind.
    intros Hin. by eapply Forall_forall in Hfind.
Qed.

Lemma Pool_tracked_acquire h s r s' :
  Pool_tracked addrs h s → Pool.acquire s = Ok (r, s') →
  Pool_tracked addrs (Acquired r :: h) s'.
Proof.
  intros Ht Hacq.
  destruct (Pool_acquire_cases _ _ Ht) as [[_ Heq]|(i & mem & j & Hi & Hj & Heq)];
    rewrite Heq in Hacq; simplify_eq.
  - by apply tracked_exhausted.
  - apply find_live_Some in Hi as (Hi & Hmem & _).
    apply list_find_Some in Hj as (Hj & _).
    unfold Pool_tracked. simpl.
    eapply (tracked_acquire addrs); [done..| |].
    + apply insert_Permutation. by eapply lookup_lt_Some.
    + apply insert_Permutation. by eapply lookup_lt_Some.
Qed.

Lemma Pool_tracked_release h s obj s' :
  Pool_tracked addrs h s → Pool.release obj s = Ok s' →
  Pool_tracked addrs (Released obj :: h) s'.
Proof.
  intros Ht Hrel.
  destruct (Pool_release_cases _ _ obj Ht)
    as [[Hnotin Heq]|[(_ & _ & Heq)|(Hobj & i & j & Hi & Hj & Heq)]];
    rewrite Heq in Hrel; simplify_eq.
  - by apply tracked_ignored.
  - apply list_find_Some in Hi as (Hi & _).
    apply list_find_Some in Hj as (Hj & _).
    unfold Pool_tracked. simpl.
    eapply (tracked_release addrs); [done..| |].
    + apply insert_Permutation. by eapply lookup_lt_Some.
    + apply insert_Permutation. by eapply lookup_lt_Some.
Qed.

(** Every state a pool can reach is tracked. *)
Lemma Pool_reaches_tracked h s :
  Pool.reaches addrs h s → Pool_tracked addrs h s.
Proof.
  induction 1 as [|h s r s' _ IH Hacq|h s obj s' _ IH Hrel].
  - by apply tracked_init.
  - by eapply Pool_tracked_acquire.
  - by eapply Pool_tracked_release.
Qed.

End array_pool.

(** ** Histories *)

Lemma outstanding_not_null h : nullptr ∉ outstanding h.
Proof.
  induction h as [|[r|obj] h IH]; simpl.
  - apply not_elem_of_nil.
  - case_decide; [done|]. apply not_elem_of_cons. split; [done|done].
  - intros [_ ?]%list_elem_of_filter. done.
Qed.

(** A reference acquired and not released since is outstanding. *)
Lemma outstanding_since h2 h1 r :
  r ≠ nullptr → Released r ∉ h2 → r ∈ outstanding (h2 ++ Acquired r :: h1).
Proof.
  intros Hr. induction h2 as [|[x|x] h2 IH]; simpl; intros Hnot.
  - rewrite decide_False by done. apply elem_of_cons. by left.
  - apply not_elem_of_cons in Hnot as [_ Hnot].
    case_decide; [by apply IH|]. apply elem_of_cons. right. by apply IH.
  - apply not_elem_of_cons in Hnot as [Hne Hnot].
    apply list_elem_of_filter. split; [|by apply IH]. intros ->. done.
Qed.

(** ** Pool.h: reachable states *)

Section array_pool_reaches.
Context {OBJ : Type} `{!Resettable OBJ}.
Context (addrs : list nat) (Hfresh : fresh_addrs addrs).
Implicit Types (s : Pool.state OBJ) (h : history).

Lemma Pool_reaches_earlier h2 h1 s :
  Pool.reaches addrs (h2 ++ h1) s → ∃ s1, Pool.reaches addrs h1 s1.
Proof.
  revert s. induction h2 as [|e h2 IH]; simpl; intros s Hr; [eauto|].
  inversion Hr; subst; eauto.
Qed.

(** acquire() returns in every reachable state. *)
Lemma Pool_acquire_total h s :
  Pool.reaches addrs h s →
  ∃ r s', Pool.acquire s = Ok (r, s') ∧ Pool.reaches addrs (Acquired r :: h) s'.
Proof.
  intros Hr. pose proof (Pool_reaches_tracked addrs Hfresh _ _ Hr) as Ht.
  destruct (Pool_acquire_cases addrs _ _ Ht)
    as [[_ Heq]|(i & mem & j & _ & _ & Heq)];
    eexists _, _; (split; [exact Heq|]); by eapply Pool.reaches_acquire.
Qed.

(** release() returns in every reachable state, unless it is passed
    [nullptr]. *)
Lemma Pool_release_total h s obj :
  Pool.reaches addrs h s → obj ≠ nullptr →
  ∃ s', Pool.release obj s = Ok s' ∧ Pool.reaches addrs (Released obj :: h) s'.
Proof.
  intros Hr Hobj. pose proof (Pool_reaches_tracked addrs Hfresh _ _ Hr) as Ht.
  destruct (Pool_release_cases addrs _ _ obj Ht)
    as [[_ Heq]|[(? & _)|(_ & i & j & _ & _ & Heq)]]; [|done|];
    eexists; (split; [exact Heq|]); by eapply Pool.reaches_release.
Qed.

Lemma Pool_run_total cs h s :
  Pool.reaches addrs h s → Forall (λ c, c ≠ Release nullptr) cs →
  ∃ h' s', Pool.run cs h s = Ok (h', s') ∧ Pool.reaches addrs h' s'.
Proof.
  intros Hr Hcs. revert h s Hr.
  induction Hcs as [|c cs Hc _ IH]; intros h s Hr; simpl; [eauto|].
  destruct c as [|obj]; simpl.
  - destruct (Pool_acquire_total _ _ Hr) as (r & s' & -> & Hr'). simpl. eauto.
  - assert (obj ≠ nullptr) as Hobj by (intros ->; done).
    destruct (Pool_release_total _ _ _ Hr Hobj) as (s' & -> & Hr'). simpl. eauto.
Qed.

(** What [run] returns is a reachable state with its history. *)
Lemma Pool_run_reaches cs h s h' s' :
  Pool.reaches addrs h s → Pool.run cs h s = Ok (h', s') →
  Pool.reaches addrs h' s'.
Proof.
  revert h s. induction cs as [|c cs IH]; simpl; intros h s Hr Hrun.
  - by simplify_eq.
  - destruct c as [|obj]; simpl in Hrun.
    + destruct (Pool.acquire s) as [[r s1]|] eqn:Hacq; [|done]. simpl in Hrun.
      eapply IH; [|done]. by eapply Pool.reaches_acquire.
    + destruct (Pool.release obj s) as [s1|] eqn:Hrel; [|done]. simpl in Hrun.
      eapply IH; [|done]. by eapply Pool.reaches_release.
Qed.

(** A successful acquire() returns an instance that was available. *)
Lemma Pool_acquire_available s r s' :
  Pool.acquire s = Ok (r, s') → r ≠ nullptr → r ∈ live (Pool._available s).
Proof.
  unfold Pool.acquire. intros Hacq Hr.
  destruct (list_find _ (Pool._available s)) as [[i mem]|] eqn:Hfind;
    [|by simplify_eq].
  apply find_live_Some in Hfind as (_ & _ & Hin).
  destruct (list_find _ (Pool._inUse s)) as [[j x]|]; by simplify_eq.
Qed.

Lemma Pool_acquired_owned h s r :
  Pool.reaches addrs h s → Acquired r ∈ h → r ≠ nullptr → r ∈ addrs.
Proof.
  intros Hreach Hin Hr.
  induction Hreach as [|h s r' s' Hreach IH Hacq|h s obj s' _ IH Hrel].
  - by apply elem_of_nil in Hin.
  - apply elem_of_cons in Hin as [[= <-]|Hin]; [|by apply IH].
    pose proof (Pool_reaches_tracked addrs Hfresh _ _ Hreach) as Ht.
    rewrite <- (tracked_split _ _ _ _ Ht). apply elem_of_app. left.
    by eapply Pool_acquire_available.
  - apply elem_of_cons in Hin as [?|Hin]; [done|by apply IH].
Qed.

(** acquire() reports exhaustion only when all instances are lent. *)
Lemma Pool_exhausted_full h s s' :
  Pool.reaches addrs h s → Pool.acquire s = Ok (nullptr, s') →
  s' = s ∧ length (outstanding h) = length addrs.
Proof.
  intros Hreach Hacq.
  pose proof (Pool_reaches_tracked addrs Hfresh _ _ Hreach) as Ht.
  destruct (Pool_acquire_cases addrs _ _ Ht)
    as [[Hnil Heq]|(i & mem & j & Hi & _ & Heq)];
    rewrite Heq in Hacq; simplify_eq.
  - split; [done|]. rewrite <- (tracked_loans _ _ _ _ Ht).
    pose proof (tracked_count addrs _ _ _ Ht) as Hc. rewrite Hnil in Hc. done.
  - by apply find_live_Some in Hi as (_ & ? & _).
Qed.

Lemma Pool_full_exhausted h s :
  Pool.reaches addrs h s → length (outstanding h) = length addrs →
  Pool.acquire s = Ok (nullptr, s).
Proof.
  intros Hreach Hfull.
  pose proof (Pool_reaches_tracked addrs Hfresh _ _ Hreach) as Ht.
  destruct (Pool_acquire_cases addrs _ _ Ht)
    as [[Hnil Heq]|(i & mem & j & Hi & _ & Heq)]; [done|].
  apply find_live_Some in Hi as (_ & _ & Hin).
  pose proof (tracked_count addrs _ _ _ Ht) as Hc.
  rewrite (tracked_loans _ _ _ _ Ht), Hfull in Hc.
  destruct (live (Pool._available s)); [by apply elem_of_nil in Hin|].
  simpl in Hc. lia.
Qed.

Lemma Pool_never_exhausted h s r :
  Pool.reaches addrs h s → never_exceeds (length addrs) h →
  Acquired r ∈ h → r ≠ nullptr.
Proof.
  intros Hreach Hne Hin.
  induction Hreach as [|h s r' s' Hreach IH Hacq|h s obj s' _ IH Hrel].
  - by apply elem_of_nil in Hin.
  - destruct Hne as [Hlt Hne].
    apply elem_of_cons in Hin as [[= <-]|Hin]; [|by apply IH].
    intros ->. apply (Pool_exhausted_full _ _ _ Hreach) in Hacq as [_ Hfull]. lia.
  - apply elem_of_cons in Hin as [?|Hin]; [done|by apply IH].
Qed.

(** An acquire() called with fewer than N loans outstanding returned an
    instance, whatever came before and after it. *)
Lemma Pool_acquire_under_capacity h2 r h1 s :
  Pool.reaches addrs (h2 ++ Acquired r :: h1) s →
  length (outstanding h1) < length addrs → r ≠ nullptr.
Proof.
  intros Hreach Hlt ->. apply Pool_reaches_earlier in Hreach as [s1 Hreach].
  inversion Hreach as [|h' s0 r' s' Hreach0 Hacq|]; subst.
  apply (Pool_exhausted_full _ _ _ Hreach0) in Hacq as [_ Hfull]. lia.
Qed.

(** [n] more loans fit: the next [n] calls of acquire() succeed. *)
Lemma Pool_acquire_n_reaches n h s :
  Pool.reaches addrs h s → length (outstanding h) + n ≤ length addrs →
  ∃ rs s', Pool.acquire_n n s = Ok (rs, s') ∧ length rs = n ∧
    Forall (λ r, r ≠ nullptr) rs ∧ Forall (λ r, r ∈ addrs) rs ∧
    Pool.reaches addrs ((Acquired <$> reverse rs) ++ h) s' ∧
    length (outstanding ((Acquired <$> reverse rs) ++ h))
      = length (outstanding h) + n.
Proof.
  revert h s. induction n as [|n IH]; intros h s Hreach Hle; simpl.
  - exists [], s. split_and!; by eauto.
  - destruct (Pool_acquire_total _ _ Hreach) as (r & s1 & Hacq & Hreach1).
    assert (r ≠ nullptr) as Hr.
    { intros ->. apply (Pool_exhausted_full _ _ _ Hreach) in Hacq as [_ ?]. lia. }
    destruct (IH (Acquired r :: h) s1 Hreach1) as (rs & s2 & Hn & Hlen & Hnn & Hown & Hreach2 & Hout).
    { simpl. rewrite decide_False by done. simpl. lia. }
    exists (r :: rs), s2. rewrite Hacq. simpl. rewrite Hn. simpl.
    rewrite reverse_cons, fmap_app, <- app_assoc. simpl.
    split_and!; [done|by rewrite Hlen| by constructor| |done|].
    + constructor; [|done]. eapply Pool_acquired_owned; [exact Hreach1| |done].
      apply elem_of_cons. by left.
    + rewrite Hout. simpl. rewrite decide_False by done. simpl. lia.
Qed.

(** The calls of reset() made so far are the releases of lent instances. *)
Lemma Pool_resets h s :
  Pool.reaches addrs h s → Pool.resets s = returned_loans h.
Proof.
  induction 1 as [|h s r s' Hreach IH Hacq|h s obj s' Hreach IH Hrel]; [done|..].
  - pose proof (Pool_reaches_tracked addrs Hfresh _ _ Hreach) as Ht.
    destruct (Pool_acquire_cases addrs _ _ Ht)
      as [[_ Heq]|(i & mem & j & _ & _ & Heq)];
      rewrite Heq in Hacq; by simplify_eq.
  - pose proof (Pool_reaches_tracked addrs Hfresh _ _ Hreach) as Ht.
    destruct (Pool_release_cases addrs _ _ obj Ht)
      as [[Hnot Heq]|[(_ & _ & Heq)|(Hobj & i & j & Hi & _ & Heq)]];
      rewrite Heq in Hrel; simplify_eq; simpl.
    + rewrite decide_False; [done|]. rewrite <- (tracked_loans _ _ _ _ Ht).
      by intros [_ ?]%list_elem_of_filter.
    + apply list_find_Some in Hi as (Hi & _).
      rewrite decide_True; [by rewrite IH|].
      rewrite <- (tracked_loans _ _ _ _ Ht).
      apply list_elem_of_filter. split; [done|]. by eapply list_elem_of_lookup_2.
Qed.

End array_pool_reaches.

(** ** Pool.h: the properties of the design document *)

Section array_pool_claims.
Context {OBJ : Type} `{!Resettable OBJ}.
Implicit Types (s : Pool.state OBJ) (h : history).

(** C1: over a pool just constructed with capacity N, the first N calls of
    acquire() each return a non-null reference (one of the N instances),
    and the call after them returns [nullptr]; it returns, it is no
    fault, and it leaves the pool as it was. *)
Theorem Pool_capacity (addrs : list nat) :
  fresh_addrs addrs →
  ∃ rs s, Pool.acquire_n (length addrs) (Pool.Pool addrs) = Ok (rs, s) ∧
    length rs = length addrs ∧
    Forall (λ r, r ≠ nullptr) rs ∧
    Forall (λ r, r ∈ addrs) rs ∧
    Pool.acquire s = Ok (nullptr, s).
Proof.
  intros Hfresh.
  destruct (Pool_acquire_n_reaches addrs Hfresh (length addrs) [] (Pool.Pool addrs))
    as (rs & s & Hn & Hlen & Hnn & Hown & Hreach & Hout).
  { constructor. }
  { simpl. lia. }
  exists rs, s. split_and!; [done..|].
  eapply Pool_full_exhausted; [done..|]. by rewrite Hout.
Qed.

(** C2: in every state reachable from construction, each of the N
    instances is held by exactly one slot of [_available] and [_inUse]
    taken together, and the non-empty slots of the two number N. *)
Theorem Pool_exactly_one_holder (addrs : list nat) h s :
  fresh_addrs addrs → Pool.reaches addrs h s →
  (∀ a, a ∈ addrs →
     holders a (Pool._available s) + holders a (Pool._inUse s) = 1) ∧
  length (live (Pool._available s)) + length (live (Pool._inUse s))
    = length addrs.
Proof.
  intros Hfresh Hreach.
  pose proof (Pool_reaches_tracked addrs Hfresh _ _ Hreach) as Ht.
  split; [|by eapply tracked_count].
  intros a Ha. assert (a ≠ nullptr) as Hnz.
  { intros ->. by destruct Hfresh. }
  rewrite <- (holders_live a (Pool._available s)) by done.
  rewrite <- (holders_live a (Pool._inUse s)) by done.
  rewrite <- holders_app.
  rewrite (holders_Permutation a _ _ (tracked_split _ _ _ _ Ht)).
  apply holders_NoDup; [apply Hfresh|done].
Qed.

(** C4: two calls of acquire() that returned the same non-null reference
    have a release() of that reference between them; so the references
    outstanding at any time are pairwise distinct. *)
Theorem Pool_no_aliasing (addrs : list nat) h s :
  fresh_addrs addrs → Pool.reaches addrs h s →
  NoDup (outstanding h) ∧
  ∀ h3 h2 h1 r,
    h = h3 ++ Acquired r :: h2 ++ Acquired r :: h1 → r ≠ nullptr →
    Released r ∈ h2.
Proof.
  intros Hfresh Hreach. split.
  { eapply tracked_outstanding_NoDup; [done|].
    by apply (Pool_reaches_tracked addrs Hfresh _ _ Hreach). }
  intros h3 h2 h1 r -> Hr.
  apply Pool_reaches_earlier in Hreach as [s1 Hreach].
  inversion Hreach as [|h' s0 r' s' Hreach0 Hacq|]; subst.
  destruct (decide (Released r ∈ h2)) as [|Hnot]; [done|exfalso].
  pose proof (Pool_reaches_tracked addrs Hfresh _ _ Hreach0) as Ht.
  pose proof (tracked_live_NoDup addrs Hfresh _ _ _ Ht) as Hnd.
  apply NoDup_app in Hnd as (_ & Hdisj & _).
  apply (Hdisj r); [by eapply Pool_acquire_available|].
  rewrite (tracked_loans _ _ _ _ Ht). by apply outstanding_since.
Qed.

(** C6: for every sequence of calls that runs to its end, whatever the
    references it passes to release(): every non-null reference an
    acquire() of it returned is one of the N instances; when every
    acquire() of it was called while fewer than N loans were outstanding,
    none returned [nullptr]; indeed each single acquire() called with fewer
    than N loans outstanding returned an instance; and in the state reached
    the next acquire() returns, an instance of the N when fewer than N
    loans are outstanding. *)
Theorem Pool_within_capacity (addrs : list nat) (cs : list call) h s :
  fresh_addrs addrs → Pool.run cs [] (Pool.Pool addrs) = Ok (h, s) →
  (∀ r, Acquired r ∈ h → r ≠ nullptr → r ∈ addrs) ∧
  (never_exceeds (length addrs) h → ∀ r, Acquired r ∈ h → r ≠ nullptr) ∧
  (∀ h2 r h1, h = h2 ++ Acquired r :: h1 →
     length (outstanding h1) < length addrs → r ≠ nullptr) ∧
  (∃ r s', Pool.acquire s = Ok (r, s') ∧
     (length (outstanding h) < length addrs → r ≠ nullptr ∧ r ∈ addrs)).
Proof.
  intros Hfresh Hrun.
  assert (Pool.reaches addrs h s) as Hreach.
  { eapply Pool_run_reaches; [|exact Hrun]. constructor. }
  split_and!.
  - intros r. by eapply Pool_acquired_owned.
  - intros Hne r. by eapply Pool_never_exhausted.
  - intros h2 r h1 -> Hlt. by eapply Pool_acquire_under_capacity.
  - destruct (Pool_acquire_total addrs Hfresh _ _ Hreach) as (r & s' & Hacq & Hreach').
    exists r, s'. split; [done|]. intros Hlt.
    assert (r ≠ nullptr) as Hr.
    { apply (Pool_acquire_under_capacity addrs Hfresh [] r h s'); done. }
    split; [done|]. eapply Pool_acquired_owned; [done|exact Hreach'| |done].
    by left.
Qed.

(** C7: in a reachable state, acquire() returns without a call of reset()
    and leaves every instance as it is; release() of a lent instance calls
    reset() once, on that instance, and changes no other instance; over a
    whole history the calls of reset() are the releases of lent
    instances, in order. *)
Theorem Pool_reset_at_release (addrs : list nat) h s :
  fresh_addrs addrs → Pool.reaches addrs h s →
  (∃ r s', Pool.acquire s = Ok (r, s') ∧
     Pool.resets s' = Pool.resets s ∧ Pool.heap s' = Pool.heap s) ∧
  (∀ obj, obj ≠ nullptr → obj ∈ Pool._inUse s →
     ∃ s', Pool.release obj s = Ok s' ∧
       Pool.resets s' = obj :: Pool.resets s ∧
       Pool.heap s' = alter reset obj (Pool.heap s)) ∧
  Pool.resets s = returned_loans h.
Proof.
  intros Hfresh Hreach. split_and!.
  - pose proof (Pool_reaches_tracked addrs Hfresh _ _ Hreach) as Ht.
    destruct (Pool_acquire_cases addrs _ _ Ht)
      as [[_ Heq]|(i & mem & j & _ & _ & Heq)]; eauto.
  - intros obj Hobj Hin.
    pose proof (Pool_reaches_tracked addrs Hfresh _ _ Hreach) as Ht.
    destruct (Pool_release_cases addrs _ _ obj Ht)
      as [[? _]|[(? & _)|(_ & i & j & _ & _ & Heq)]]; [done..|]. eauto.
  - by eapply Pool_resets.
Qed.

End array_pool_claims.

Section array_pool_reuse.
Context {OBJ : Type} `{!Resettable OBJ}.
Implicit Types (s : Pool.state OBJ) (h : history).

(** acquire() returns what the scan of [_available] finds first. *)
Lemma Pool_acquire_first s r s' i mem :
  Pool.acquire s = Ok (r, s') →
  list_find (λ p, p ≠ nullptr) (Pool._available s) = Some (i, mem) →
  r = mem.
Proof.
  unfold Pool.acquire. intros Hacq Hfind. rewrite Hfind in Hacq.
  destruct (list_find _ (Pool._inUse s)) as [[j x]|]; by simplify_eq.
Qed.

(** C5, as the code has it: in a reachable state, release(r) of a lent
    instance followed at once by acquire() returns [r] when slot 0 of
    [_available] was empty, as it is when all N instances are lent;
    when slot 0 holds an instance, acquire() returns that one. *)
Theorem Pool_release_then_acquire (addrs : list nat) h s r :
  fresh_addrs addrs → Pool.reaches addrs h s →
  r ≠ nullptr → r ∈ Pool._inUse s →
  ∃ s1 r' s2 a,
    Pool.release r s = Ok s1 ∧ Pool.acquire s1 = Ok (r', s2) ∧
    Pool._available s !! 0 = Some a ∧
    r' = (if decide (a = nullptr) then r else a) ∧
    (length (outstanding h) = length addrs → a = nullptr).
Proof.
  intros Hfresh Hreach Hr Hin.
  pose proof (Pool_reaches_tracked addrs Hfresh _ _ Hreach) as Ht.
  destruct (Pool_release_cases addrs _ _ r Ht)
    as [[? _]|[(? & _)|(_ & i & j & Hi & Hj & Hrel)]]; [done..|].
  pose proof (Pool.reaches_release _ _ _ _ _ Hreach Hrel) as Hreach1.
  destruct (Pool_acquire_total addrs Hfresh _ _ Hreach1) as (r' & s2 & Hacq & _).
  apply list_find_Some in Hj as (Hj & _ & Hmin).
  destruct (Pool._available s) as [|a av] eqn:Hav; [done|].
  eexists _, r', s2, a. split_and!; [done..| |].
  - destruct (decide (a = nullptr)) as [->|Ha].
    + destruct j as [|j]; [|by destruct (Hmin 0 nullptr eq_refl ltac:(lia))].
      eapply Pool_acquire_first; [done|]. simpl.
      unfold list_find. simpl. by rewrite decide_True.
    + destruct j as [|j]; [by simplify_eq/=|].
      eapply Pool_acquire_first; [done|]. simpl.
      unfold list_find. simpl. by rewrite decide_True.
  - intros Hfull. pose proof (tracked_count addrs _ _ _ Ht) as Hc.
    rewrite (tracked_loans _ _ _ _ Ht), Hfull in Hc.
    destruct (decide (a = nullptr)) as [|Ha]; [done|].
    rewrite Hav in Hc. unfold live in Hc at 1.
    rewrite filter_cons_True in Hc by done. simpl in Hc. lia.
Qed.

(** C8: the capacity-2 scenario.  Over the two instances [p1] and [p2],
    a1 and a2 are non-null (they are [p1] and [p2]), a3 is [nullptr],
    a4 is a1 and a5 is a2. *)
Theorem Pool_scenario_capacity2 (p1 p2 : nat) :
  fresh_addrs [p1; p2] →
  scenario_capacity2 (Pool.Pool [p1; p2]) = Ok (p1, p2, nullptr, p1, p2) ∧
  p1 ≠ nullptr ∧ p2 ≠ nullptr.
Proof.
  intros [Hnd Hnull].
  apply NoDup_cons in Hnd as [Hne _].
  apply not_elem_of_cons in Hnull as [Hp1 Hp2%not_elem_of_cons].
  destruct Hp2 as [Hp2 _].
  assert (p1 ≠ p2) as Hne' by (intros ->; apply Hne; by left).
  split; [|by split].
  unfold scenario_capacity2, Pool.acquire, Pool.release, Pool.call_reset,
    Pool.mark_available, list_find; simpl.
  repeat (case_decide; simplify_eq/=; try done).
Qed.

End array_pool_reuse.

(** ** MultisetPool.h: the multisets *)

Lemma multiset_erase_insert_Permutation (l : list nat) i v :
  multiset_insert v (multiset_erase i l) ≡ₚ v :: delete i l.
Proof. apply multiset_insert_Permutation. Qed.

Lemma multiset_fill_Permutation (addrs acc : list nat) :
  foldl (λ m a, multiset_insert a m) acc addrs ≡ₚ addrs ++ acc.
Proof.
  revert acc. induction addrs as [|a addrs IH]; intros acc; simpl; [done|].
  by rewrite IH, multiset_insert_Permutation, Permutation_middle.
Qed.

Lemma multiset_fill_null_Permutation (addrs acc : list nat) :
  foldl (λ m _, multiset_insert nullptr m) acc addrs
    ≡ₚ replicate (length addrs) nullptr ++ acc.
Proof.
  revert acc. induction addrs as [|a addrs IH]; intros acc; simpl; [done|].
  by rewrite IH, multiset_insert_Permutation, Permutation_middle.
Qed.

Lemma multiset_insert_sorted x (l : list nat) :
  StronglySorted le l → StronglySorted le (multiset_insert x l).
Proof.
  induction 1 as [|y l Hl IH Hy]; simpl.
  - repeat constructor.
  - case_decide.
    + constructor; [by constructor|]. constructor; [lia|].
      eapply Forall_impl; [exact Hy|]. simpl. lia.
    + constructor; [done|]. rewrite multiset_insert_Permutation.
      constructor; [lia|done].
Qed.

Lemma multiset_erase_sorted i (l : list nat) :
  StronglySorted le l → StronglySorted le (multiset_erase i l).
Proof.
  unfold multiset_erase. intros Hl. revert i.
  induction Hl as [|y l Hl IH Hy]; intros [|i]; simpl;
    [constructor|constructor|done|].
  constructor; [apply IH|]. by apply Forall_delete.
Qed.

Lemma multiset_fill_sorted (addrs acc : list nat) :
  StronglySorted le acc →
  StronglySorted le (foldl (λ m a, multiset_insert a m) acc addrs).
Proof.
  revert acc. induction addrs as [|a addrs IH]; intros acc Hacc; simpl; [done|].
  by apply IH, multiset_insert_sorted.
Qed.

(** The scan for a non-null element of a multiset stops at the one with the
    lowest address. *)
Lemma multiset_find_lowest (l : list nat) i mem :
  StronglySorted le l →
  list_find (λ p, p ≠ nullptr) l = Some (i, mem) →
  ∀ x, x ∈ live l → mem ≤ x.
Proof.
  intros Hl. revert i. induction Hl as [|y l Hl IH Hy]; intros i Hfind x Hx.
  - done.
  - unfold live in Hx. apply list_elem_of_filter in Hx as [Hx Hin].
    unfold list_find in Hfind. simpl in Hfind. fold (list_find (λ p, p ≠ nullptr) l) in Hfind. case_decide.
    + simplify_eq. apply elem_of_cons in Hin as [->|Hin]; [done|].
      by eapply Forall_forall in Hy.
    + apply elem_of_cons in Hin as [->|Hin]; [done|].
      destruct (list_find (λ p, p ≠ nullptr) l) as [[i' mem']|] eqn:Hf; [|done].
      simpl in Hfind. simplify_eq. eapply IH; [done|].
      by apply list_elem_of_filter.
Qed.

(** ** MultisetPool.h: what acquire() and release() do in a tracked state *)

Section multiset_pool.
Context {OBJ : Type} `{!Resettable OBJ}.
Context (addrs : list nat) (Hfresh : fresh_addrs addrs).
Implicit Types (s : MultisetPool.state OBJ) (h : history).

Lemma MultisetPool_acquire_cases h s :
  MultisetPool_tracked addrs h s →
  (live (MultisetPool._available s) = [] ∧
     MultisetPool.acquire s = Ok (nullptr, s)) ∨
  (∃ i mem j,
      list_find (λ p, p ≠ nullptr) (MultisetPool._available s) = Some (i, mem) ∧
      list_find (λ p, p = nullptr) (MultisetPool._inUse s) = Some (j, nullptr) ∧
      MultisetPool.acquire s =
        Ok (mem, MultisetPool.mk
              (multiset_insert nullptr (multiset_erase i (MultisetPool._available s)))
              (multiset_insert mem (multiset_erase j (MultisetPool._inUse s)))
              (MultisetPool.heap s) (MultisetPool.resets s))).
Proof.
  intros Ht. unfold MultisetPool.acquire.
  destruct (list_find _ (MultisetPool._available s)) as [[i mem]|] eqn:Hfind.
  - right. apply find_live_Some in Hfind as Hmem. destruct Hmem as (Hi & Hmem & _).
    destruct (tracked_inUse_null addrs _ _ _ _ _ Ht Hi Hmem) as [j Hj].
    exists i, mem, j. by rewrite Hj.
  - left. by apply find_live_None in Hfind.
Qed.

Lemma MultisetPool_release_cases h s obj :
  MultisetPool_tracked addrs h s →
  ((obj ∉ MultisetPool._inUse s) ∧ MultisetPool.release obj s = Ok s) ∨
  (obj = nullptr ∧ obj ∈ MultisetPool._inUse s ∧
     MultisetPool.release obj s = Fault NullMemberCall) ∨
  (obj ≠ nullptr ∧ ∃ i j,
      list_find (λ p, p = obj) (MultisetPool._inUse s) = Some (i, obj) ∧
      list_find (λ p, p = nullptr) (MultisetPool._available s) = Some (j, nullptr) ∧
      MultisetPool.release obj s =
        Ok (MultisetPool.mk
              (multiset_insert obj (multiset_erase j (MultisetPool._available s)))
              (multiset_insert nullptr (multiset_erase i (MultisetPool._inUse s)))
              (alter reset obj (MultisetPool.heap s))
              (obj :: MultisetPool.resets s))).
Proof.
  intros Ht. unfold MultisetPool.release.
  destruct (list_find _ (MultisetPool._inUse s)) as [[i mem]|] eqn:Hfind.
  - apply list_find_Some in Hfind as Hf. destruct Hf as (Hi & -> & _).
    right. unfold MultisetPool.call_reset.
    destruct (decide (obj = nullptr)) as [->|Hobj].
    + left. split_and!; [done| |done]. by eapply list_elem_of_lookup_2.
    + right. split; [done|].
      destruct (tracked_available_null addrs _ _ _ _ _ Ht Hi Hobj) as [j Hj].
      exists i, j. split_and!; [done..|].
      simpl. unfold MultisetPool.mark_available. simpl. by rewrite Hj.
  - left. split; [|done]. apply list_find_None in Hfind.
    intros Hin. by eapply Forall_forall in Hfind.
Qed.

Lemma MultisetPool_reaches_tracked h s :
  MultisetPool.reaches addrs h s → MultisetPool_tracked addrs h s.
Proof.
  induction 1 as [|h s r s' _ IH Hacq|h s obj s' _ IH Hrel].
  - apply tracked_init; [done|..]; simpl.
    + by rewrite multiset_fill_Permutation, app_nil_r.
    + by rewrite multiset_fill_null_Permutation, app_nil_r.
  - destruct (MultisetPool_acquire_cases _ _ IH)
      as [[_ Heq]|(i & mem & j & Hi & Hj & Heq)];
      rewrite Heq in Hacq; simplify_eq.
    + by apply tracked_exhausted.
    + apply find_live_Some in Hi as (Hi & Hmem & _).
      apply list_find_Some in Hj as (Hj & _).
      unfold MultisetPool_tracked. simpl.
      eapply (tracked_acquire addrs); [done..| |];
        apply multiset_erase_insert_Permutation.
  - destruct (MultisetPool_release_cases _ _ obj IH)
      as [[Hnotin Heq]|[(_ & _ & Heq)|(Hobj & i & j & Hi & Hj & Heq)]];
      rewrite Heq in Hrel; simplify_eq.
    + by apply tracked_ignored.
    + apply list_find_Some in Hi as (Hi & _).
      apply list_find_Some in Hj as (Hj & _).
      unfold MultisetPool_tracked. simpl.
      eapply (tracked_release addrs); [done..| |];
        apply multiset_erase_insert_Permutation.
Qed.

(** [_available] stays in the order of the addresses. *)
Lemma MultisetPool_reaches_sorted h s :
  MultisetPool.reaches addrs h s →
  StronglySorted le (MultisetPool._available s).
Proof.
  induction 1 as [|h s r s' Hreach IH Hacq|h s obj s' Hreach IH Hrel].
  - simpl. apply multiset_fill_sorted. constructor.
  - pose proof (MultisetPool_reaches_tracked _ _ Hreach) as Ht.
    destruct (MultisetPool_acquire_cases _ _ Ht)
      as [[_ Heq]|(i & mem & j & Hi & Hj & Heq)];
      rewrite Heq in Hacq; simplify_eq; [done|].
    simpl. by apply multiset_insert_sorted, multiset_erase_sorted.
  - pose proof (MultisetPool_reaches_tracked _ _ Hreach) as Ht.
    destruct (MultisetPool_release_cases _ _ obj Ht)
      as [[Hnotin Heq]|[(_ & _ & Heq)|(Hobj & i & j & Hi & Hj & Heq)]];
      rewrite Heq in Hrel; simplify_eq; [done|].
    simpl. by apply multiset_insert_sorted, multiset_erase_sorted.
Qed.

(** acquire() returns in every reachable state: the scan of [_inUse] for
    an empty slot does not reach the end. *)
Lemma MultisetPool_acquire_total h s :
  MultisetPool.reaches addrs h s →
  ∃ r s', MultisetPool.acquire s = Ok (r, s') ∧
    MultisetPool.reaches addrs (Acquired r :: h) s'.
Proof.
  intros Hr. pose proof (MultisetPool_reaches_tracked _ _ Hr) as Ht.
  destruct (MultisetPool_acquire_cases _ _ Ht)
    as [[_ Heq]|(i & mem & j & _ & _ & Heq)];
    eexists _, _; (split; [exact Heq|]); by eapply MultisetPool.reaches_acquire.
Qed.

Lemma MultisetPool_release_total h s obj :
  MultisetPool.reaches addrs h s → obj ≠ nullptr →
  ∃ s', MultisetPool.release obj s = Ok s' ∧
    MultisetPool.reaches addrs (Released obj :: h) s'.
Proof.
  intros Hr Hobj. pose proof (MultisetPool_reaches_tracked _ _ Hr) as Ht.
  destruct (MultisetPool_release_cases _ _ obj Ht)
    as [[_ Heq]|[(? & _)|(_ & i & j & _ & _ & Heq)]]; [|done|];
    eexists; (split; [exact Heq|]); by eapply MultisetPool.reaches_release.
Qed.

Lemma MultisetPool_resets h s :
  MultisetPool.reaches addrs h s → MultisetPool.resets s = returned_loans h.
Proof.
  induction 1 as [|h s r s' Hreach IH Hacq|h s obj s' Hreach IH Hrel]; [done|..].
  - pose proof (MultisetPool_reaches_tracked _ _ Hreach) as Ht.
    destruct (MultisetPool_acquire_cases _ _ Ht)
      as [[_ Heq]|(i & mem & j & _ & _ & Heq)];
      rewrite Heq in Hacq; by simplify_eq.
  - pose proof (MultisetPool_reaches_tracked _ _ Hreach) as Ht.
    destruct (MultisetPool_release_cases _ _ obj Ht)
      as [[Hnot Heq]|[(_ & _ & Heq)|(Hobj & i & j & Hi & _ & Heq)]];
      rewrite Heq in Hrel; simplify_eq; simpl.
    + rewrite decide_False; [done|]. rewrite <- (tracked_loans _ _ _ _ Ht).
      by intros [_ ?]%list_elem_of_filter.
    + apply list_find_Some in Hi as (Hi & _).
      rewrite decide_True; [by rewrite IH|].
      rewrite <- (tracked_loans _ _ _ _ Ht).
      apply list_elem_of_filter. split; [done|]. by eapply list_elem_of_lookup_2.
Qed.

End multiset_pool.

(** ** Pool.h against MultisetPool.h *)

Lemma elem_of_live (l : list nat) x : x ∈ live l ↔ x ≠ nullptr ∧ x ∈ l.
Proof. unfold live. by rewrite list_elem_of_filter. Qed.

(** A structure has an empty slot exactly when it has fewer non-empty slots
    than slots. *)
Lemma null_slot_iff (l : list nat) :
  nullptr ∈ l ↔ length (live l) < length l.
Proof.
  split.
  - intros Hin. apply (length_filter_lt (λ p, p ≠ nullptr) l nullptr Hin).
    by intros ?.
  - intros [j Hj]%find_null_Some. apply list_find_Some in Hj as (Hj & _).
    by eapply list_elem_of_lookup_2.
Qed.

Section two_pools.
Context {OBJ : Type} `{!Resettable OBJ}.

(** C9, as the code has it: take two pools over the same instances, one of
    each implementation, in which the same instances are lent, whatever
    calls led there.  Then the same instances are available in both, and
    the next call does the same in both, up to the instance acquire()
    picks.
    - release(obj): [_inUse] holds [obj] in both or in neither.  Both
      ignore it, or both accept it (and call reset() on it), or, for
      [nullptr] with fewer than N instances lent, both call reset()
      through the null pointer.  After a release() that returns, the same
      instances are lent in both.
    - acquire(): both return, and both report exhaustion or both return an
      instance.  The array-based pool returns the instance in the first
      non-empty slot of [_available], the multiset-based pool the available
      instance with the lowest address.  These are the same instance
      exactly when that slot holds the lowest available address, as it does
      when only one instance is available; then again the same instances
      are lent in both. *)
Theorem pools_agree_on_same_loans (addrs : list nat) ha hm
    (sa : Pool.state OBJ) (sm : MultisetPool.state OBJ) :
  fresh_addrs addrs →
  Pool.reaches addrs ha sa → MultisetPool.reaches addrs hm sm →
  outstanding ha ≡ₚ outstanding hm →
  live (Pool._available sa) ≡ₚ live (MultisetPool._available sm) ∧
  live (Pool._inUse sa) ≡ₚ live (MultisetPool._inUse sm) ∧
  (∀ obj,
     (obj ∈ Pool._inUse sa ↔ obj ∈ MultisetPool._inUse sm) ∧
     outstanding (Released obj :: ha) ≡ₚ outstanding (Released obj :: hm) ∧
     ((∃ sa' sm',
         Pool.release obj sa = Ok sa' ∧ MultisetPool.release obj sm = Ok sm' ∧
         Pool.reaches addrs (Released obj :: ha) sa' ∧
         MultisetPool.reaches addrs (Released obj :: hm) sm' ∧
         (obj ∈ Pool._inUse sa →
            Pool.resets sa' = obj :: Pool.resets sa ∧
            MultisetPool.resets sm' = obj :: MultisetPool.resets sm) ∧
         (obj ∉ Pool._inUse sa → sa' = sa ∧ sm' = sm)) ∨
      (obj = nullptr ∧ obj ∈ Pool._inUse sa ∧
         Pool.release obj sa = Fault NullMemberCall ∧
         MultisetPool.release obj sm = Fault NullMemberCall))) ∧
  (∃ ra sa' rm sm',
     Pool.acquire sa = Ok (ra, sa') ∧ MultisetPool.acquire sm = Ok (rm, sm') ∧
     Pool.reaches addrs (Acquired ra :: ha) sa' ∧
     MultisetPool.reaches addrs (Acquired rm :: hm) sm' ∧
     (ra = nullptr ↔ rm = nullptr) ∧
     (ra ≠ nullptr →
        ∃ i, Pool._available sa !! i = Some ra ∧
          ∀ k x, k < i → Pool._available sa !! k = Some x → x = nullptr) ∧
     (rm ≠ nullptr →
        rm ∈ MultisetPool._available sm ∧
        ∀ a, a ≠ nullptr → a ∈ MultisetPool._available sm → rm ≤ a) ∧
     (ra = rm ↔ ∀ a, a ≠ nullptr → a ∈ Pool._available sa → ra ≤ a) ∧
     (length (live (Pool._available sa)) ≤ 1 → ra = rm) ∧
     (ra = rm →
        outstanding (Acquired ra :: ha) ≡ₚ outstanding (Acquired rm :: hm))).
Proof.
  intros Hfresh Hra Hrm Hsame.
  pose proof (Pool_reaches_tracked addrs Hfresh _ _ Hra) as Hta.
  pose proof (MultisetPool_reaches_tracked addrs Hfresh _ _ Hrm) as Htm.
  assert (live (Pool._inUse sa) ≡ₚ live (MultisetPool._inUse sm)) as Hiu.
  { by rewrite (tracked_loans _ _ _ _ Hta), (tracked_loans _ _ _ _ Htm). }
  assert (live (Pool._available sa) ≡ₚ live (MultisetPool._available sm)) as Hav.
  { apply (Permutation_app_inv_r (live (Pool._inUse sa))).
    rewrite (tracked_split _ _ _ _ Hta), Hiu.
    by rewrite (tracked_split _ _ _ _ Htm). }
  split_and!; [done|done| |].
  - intros obj.
    assert (obj ∈ Pool._inUse sa ↔ obj ∈ MultisetPool._inUse sm) as Hmem.
    { destruct (decide (obj = nullptr)) as [->|Hobj].
      - rewrite !null_slot_iff, Hiu.
        by rewrite (tracked_inUse_length _ _ _ _ Hta),
          (tracked_inUse_length _ _ _ _ Htm).
      - assert (∀ l : list nat, obj ∈ l ↔ obj ∈ live l) as Hlive.
        { intros l. rewrite elem_of_live. split; [by intros ?|by intros [_ ?]]. }
        by rewrite (Hlive (Pool._inUse sa)), (Hlive (MultisetPool._inUse sm)), Hiu. }
    split_and!; [done|simpl; by rewrite Hsame|].
    destruct (Pool_release_cases addrs _ _ obj Hta)
      as [[Hna Ha]|[(Hnull & Hia & Ha)|(Hobj & i & j & Hi & _ & Ha)]];
    destruct (MultisetPool_release_cases addrs _ _ obj Htm)
      as [[Hnm Hm]|[(Hnull' & Him & Hm)|(Hobj' & i' & j' & Hi' & _ & Hm)]].
    + left. exists sa, sm. split_and!; [done..| | |done|done].
      * by eapply Pool.reaches_release.
      * by eapply MultisetPool.reaches_release.
    + destruct Hna. by apply Hmem.
    + destruct Hna. apply Hmem. apply list_find_Some in Hi' as (Hi' & _).
      by eapply list_elem_of_lookup_2.
    + destruct Hnm. by apply Hmem.
    + right. done.
    + done.
    + destruct Hnm. apply Hmem. apply list_find_Some in Hi as (Hi & _).
      by eapply list_elem_of_lookup_2.
    + done.
    + left. eexists _, _. split_and!; [exact Ha|exact Hm| | |done|].
      * by eapply Pool.reaches_release.
      * by eapply MultisetPool.reaches_release.
      * intros Hna. destruct Hna. apply list_find_Some in Hi as (Hi & _).
        by eapply list_elem_of_lookup_2.
  - destruct (Pool_acquire_cases addrs _ _ Hta)
      as [[Hnil Ha]|(i & ra & j & Hi & _ & Ha)];
    destruct (MultisetPool_acquire_cases addrs _ _ Htm)
      as [[Hnil' Hm]|(i' & rm & j' & Hi' & _ & Hm)].
    + exists nullptr, sa, nullptr, sm.
      split_and!; [done|done| | |done|done|done| |done|].
      * by eapply Pool.reaches_acquire.
      * by eapply MultisetPool.reaches_acquire.
      * split; [|done]. intros _ a _ _. lia.
      * intros _. simpl. done.
    + apply find_live_Some in Hi' as (_ & _ & Hin).
      rewrite <- Hav, Hnil in Hin. by apply elem_of_nil in Hin.
    + apply find_live_Some in Hi as (_ & _ & Hin).
      rewrite Hav, Hnil' in Hin. by apply elem_of_nil in Hin.
    + pose proof (find_live_Some _ _ _ Hi) as (Hia & Hra' & Hina).
      pose proof (find_live_Some _ _ _ Hi') as (Him & Hrm' & Hinm).
      assert (∀ a, a ∈ live (MultisetPool._available sm) → rm ≤ a) as Hlow.
      { eapply multiset_find_lowest; [|done].
        by eapply MultisetPool_reaches_sorted. }
      eexists ra, _, rm, _.
      split_and!; [exact Ha|exact Hm| | |done| | | | |].
      * by eapply Pool.reaches_acquire.
      * by eapply MultisetPool.reaches_acquire.
      * intros _. exists i. split; [done|]. intros k x Hk Hx.
        apply list_find_Some in Hi as (_ & _ & Hmin).
        destruct (decide (x = nullptr)) as [|Hnz]; [done|].
        by destruct (Hmin k x Hx Hk).
      * intros _. split; [by eapply list_elem_of_lookup_2|].
        intros a Ha' Hin. apply Hlow. by apply elem_of_live.
      * split.
        -- intros -> a Ha' Hin. apply Hlow. rewrite <- Hav. by apply elem_of_live.
        -- intros Hlowa.
           assert (rm ≤ ra) by (apply Hlow; by rewrite <- Hav).
           assert (ra ≤ rm); [|lia].
           rewrite <- Hav in Hinm. apply elem_of_live in Hinm as [? ?].
           by apply Hlowa.
      * intros Hone. rewrite <- Hav in Hinm.
        destruct (live (Pool._available sa)) as [|x [|y l]]; simpl in *;
          [by apply elem_of_nil in Hina| |lia].
        apply list_elem_of_singleton in Hina, Hinm. congruence.
      * intros <-. simpl. repeat case_decide; try done. by rewrite Hsame.
Qed.

End two_pools.

(** ** release() of a reference that [_inUse] does not hold, and of
    [nullptr] *)

(** In any state, release() of a reference that no slot of [_inUse] holds
    returns and changes nothing. *)
Lemma Pool_release_not_in_use {OBJ} `{!Resettable OBJ} (s : Pool.state OBJ) obj :
  obj ∉ Pool._inUse s → Pool.release obj s = Ok s.
Proof.
  intros Hnot. unfold Pool.release.
  destruct (list_find _ (Pool._inUse s)) as [[i mem]|] eqn:Hfind; [|done].
  apply list_find_Some in Hfind as (Hi & -> & _).
  destruct Hnot. by eapply list_elem_of_lookup_2.
Qed.

(** A second release() of a reference, with no call in between, is ignored. *)
Lemma Pool_release_twice {OBJ} `{!Resettable OBJ} (addrs : list nat) h
    (s : Pool.state OBJ) obj :
  fresh_addrs addrs → Pool.reaches addrs (Released obj :: h) s →
  obj ≠ nullptr → Pool.release obj s = Ok s.
Proof.
  intros Hfresh Hreach Hobj. apply Pool_release_not_in_use. intros Hin.
  pose proof (Pool_reaches_tracked addrs Hfresh _ _ Hreach) as Ht.
  assert (obj ∈ live (Pool._inUse s)) as Hlive by by apply list_elem_of_filter.
  rewrite (tracked_loans _ _ _ _ Ht) in Hlive. simpl in Hlive.
  by apply list_elem_of_filter in Hlive as [? _].
Qed.

(** Every empty slot of [_inUse] holds [nullptr], so release(nullptr) finds
    its argument whenever fewer than N instances are lent. *)
Lemma Pool_release_nullptr {OBJ} `{!Resettable OBJ} (s : Pool.state OBJ) :
  nullptr ∈ Pool._inUse s → Pool.release nullptr s = Fault NullMemberCall.
Proof.
  intros Hin. unfold Pool.release.
  destruct (list_find_elem_of (λ p, p = nullptr) _ nullptr Hin eq_refl)
    as [[i mem] ->]. done.
Qed.

(** C3, at a pool of capacity 2 just constructed: release(nullptr) finds
    [nullptr] in slot 0 of [_inUse] and calls reset() through it. *)
Theorem Pool_release_nullptr_fresh :
  (nullptr ∉ outstanding []) ∧
  list_find (λ p, p = nullptr) (Pool._inUse (Pool.Pool (OBJ:=BigObject) [1; 2]))
    = Some (0, nullptr) ∧
  Pool.release nullptr (Pool.Pool (OBJ:=BigObject) [1; 2])
    = Fault NullMemberCall.
Proof. split_and!; [apply not_elem_of_nil|done|done]. Qed.

(** C10, at the same state and argument: [nullptr] is found in [_inUse],
    and the scan of [_available] for an empty slot that follows the call of
    reset() reaches the end, through which line 107 writes. *)
Theorem Pool_release_nullptr_end_iterator :
  list_find (λ p, p = nullptr) (Pool._inUse (Pool.Pool (OBJ:=BigObject) [1; 2]))
    = Some (0, nullptr) ∧
  list_find (λ p, p = nullptr) (Pool._available (Pool.Pool (OBJ:=BigObject) [1; 2]))
    = None ∧
  Pool.mark_available 0 nullptr (Pool.Pool (OBJ:=BigObject) [1; 2])
    = Fault EndIteratorDeref.
Proof. split_and!; done. Qed.

(** ** The test case and concrete runs *)

(** The REQUIREs of the test case hold. *)
Lemma TEST_CASE_Allocations_passes :
  TEST_CASE_Allocations (Pool.Pool [1; 2]) = Ok [true; true; true; true; true].
Proof. reflexivity. Qed.

(** C5 as stated fails: with instance 1 available in slot 0, release(2)
    followed by acquire() returns instance 1. *)
Lemma Pool_release_then_acquire_other :
  ∃ s s1 s2,
    Pool.run [Acquire; Acquire; Release 1] [] (Pool.Pool (OBJ:=BigObject) [1; 2])
      = Ok ([Released 1; Acquired 2; Acquired 1], s) ∧
    Pool._available s = [1; nullptr] ∧ Pool._inUse s = [nullptr; 2] ∧
    Pool.release 2 s = Ok s1 ∧ Pool.acquire s1 = Ok (1, s2) ∧ 1 ≠ 2.
Proof. eexists _, _, _. split_and!; [reflexivity..|done]. Qed.

(** C9 as stated fails: over the instances at addresses 1 and 2, after
    both were acquired and released, 2 first, the array-based pool returns
    instance 2 (it sits in slot 0) and the multiset-based pool instance 1. *)
Lemma pools_disagree :
  ∃ sa sm,
    Pool.run [Acquire; Acquire; Release 2; Release 1; Acquire] []
        (Pool.Pool (OBJ:=BigObject) [1; 2])
      = Ok ([Acquired 2; Released 1; Released 2; Acquired 2; Acquired 1], sa) ∧
    MultisetPool.run [Acquire; Acquire; Release 2; Release 1; Acquire] []
        (MultisetPool.Pool (OBJ:=BigObject) [1; 2])
      = Ok ([Acquired 1; Released 1; Released 2; Acquired 2; Acquired 1], sm) ∧
    Acquired 2 ≠ Acquired 1.
Proof. eexists _, _. split_and!; [reflexivity..|done]. Qed.

(** ** The theorems at concrete pools *)

Lemma fresh_addrs_1_2 : fresh_addrs [1; 2].
Proof. apply (bool_decide_unpack _). vm_compute. exact I. Defined.

Lemma fresh_addrs_2_1 : fresh_addrs [2; 1].
Proof. apply (bool_decide_unpack _). vm_compute. exact I. Defined.

Lemma Pool_capacity_witness :
  fresh_addrs [1; 2] ∧
  ∃ rs s, Pool.acquire_n 2 (Pool.Pool (OBJ:=BigObject) [1; 2]) = Ok (rs, s) ∧
    length rs = 2 ∧ Forall (λ r, r ≠ nullptr) rs ∧ Forall (λ r, r ∈ [1; 2]) rs ∧
    Pool.acquire s = Ok (nullptr, s).
Proof.
  split; [exact fresh_addrs_1_2|].
  apply (Pool_capacity (OBJ:=BigObject) [1; 2]). exact fresh_addrs_1_2.
Defined.

Lemma one_lent_reaches : Pool.reaches [1; 2] [Acquired 1] one_lent.
Proof. eapply Pool.reaches_acquire; [apply Pool.reaches_Pool|reflexivity]. Defined.

Lemma all_lent_reaches : Pool.reaches [1; 2] [Acquired 2; Acquired 1] all_lent.
Proof. eapply Pool.reaches_acquire; [apply one_lent_reaches|reflexivity]. Defined.

Lemma lent_again_reaches :
  Pool.reaches [1; 2] [Acquired 1; Released 1; Acquired 1] lent_again.
Proof.
  eapply Pool.reaches_acquire;
    [eapply Pool.reaches_release; [apply one_lent_reaches|reflexivity]|reflexivity].
Defined.

Lemma multiset_one_lent_reaches :
  MultisetPool.reaches [1; 2] [Acquired 1] multiset_one_lent.
Proof.
  eapply MultisetPool.reaches_acquire; [apply MultisetPool.reaches_Pool|reflexivity].
Defined.

Lemma Pool_exactly_one_holder_witness :
  fresh_addrs [1; 2] ∧ Pool.reaches [1; 2] [Acquired 1] one_lent ∧
  (∀ a, a ∈ [1; 2] →
     holders a (Pool._available one_lent) + holders a (Pool._inUse one_lent) = 1) ∧
  length (live (Pool._available one_lent)) + length (live (Pool._inUse one_lent))
    = 2.
Proof.
  split_and!; [exact fresh_addrs_1_2|exact one_lent_reaches| |];
    apply (Pool_exactly_one_holder [1; 2] _ _ fresh_addrs_1_2 one_lent_reaches).
Defined.

Lemma Pool_no_aliasing_witness :
  fresh_addrs [1; 2] ∧
  Pool.reaches [1; 2] [Acquired 1; Released 1; Acquired 1] lent_again ∧
  NoDup (outstanding [Acquired 1; Released 1; Acquired 1]) ∧
  Released 1 ∈ [Released 1].
Proof.
  split_and!; [exact fresh_addrs_1_2|exact lent_again_reaches| |].
  - apply (Pool_no_aliasing [1; 2] _ _ fresh_addrs_1_2 lent_again_reaches).
  - by apply (proj2 (Pool_no_aliasing [1; 2] _ _ fresh_addrs_1_2 lent_again_reaches)
                [] [Released 1] [] 1).
Defined.

Lemma Pool_within_capacity_witness :
  fresh_addrs [1; 2] ∧
  Pool.run [Acquire; Acquire; Release nullptr; Release 1; Acquire] []
      (Pool.Pool [1; 2])
    = Ok ([Acquired 1; Released 1; Released nullptr; Acquired 2; Acquired 1],
          all_lent_again) ∧
  never_exceeds 2
    [Acquired 1; Released 1; Released nullptr; Acquired 2; Acquired 1] ∧
  (∀ r, Acquired r
          ∈ [Acquired 1; Released 1; Released nullptr; Acquired 2; Acquired 1] →
        r ≠ nullptr).
Proof.
  assert (never_exceeds 2
            [Acquired 1; Released 1; Released nullptr; Acquired 2; Acquired 1])
    as Hne by (simpl; repeat split; lia).
  split_and!; [exact fresh_addrs_1_2|reflexivity|exact Hne|].
  by apply (Pool_within_capacity [1; 2]
              [Acquire; Acquire; Release nullptr; Release 1; Acquire] _
              all_lent_again fresh_addrs_1_2 eq_refl).
Defined.

Lemma Pool_reset_at_release_witness :
  fresh_addrs [1; 2] ∧ Pool.reaches [1; 2] [Acquired 1] one_lent ∧
  (∃ r s', Pool.acquire one_lent = Ok (r, s') ∧
     Pool.resets s' = Pool.resets one_lent ∧ Pool.heap s' = Pool.heap one_lent) ∧
  (∀ obj, obj ≠ nullptr → obj ∈ Pool._inUse one_lent →
     ∃ s', Pool.release obj one_lent = Ok s' ∧
       Pool.resets s' = obj :: Pool.resets one_lent ∧
       Pool.heap s' = alter reset obj (Pool.heap one_lent)) ∧
  Pool.resets one_lent = returned_loans [Acquired 1].
Proof.
  split_and!; [exact fresh_addrs_1_2|exact one_lent_reaches|..];
    apply (Pool_reset_at_release [1; 2] _ _ fresh_addrs_1_2 one_lent_reaches).
Defined.

Lemma Pool_release_then_acquire_witness :
  fresh_addrs [1; 2] ∧
  Pool.reaches [1; 2] [Acquired 2; Acquired 1] all_lent ∧
  1 ≠ nullptr ∧ 1 ∈ Pool._inUse all_lent ∧
  ∃ s1 r' s2 a,
    Pool.release 1 all_lent = Ok s1 ∧ Pool.acquire s1 = Ok (r', s2) ∧
    Pool._available all_lent !! 0 = Some a ∧
    r' = (if decide (a = nullptr) then 1 else a) ∧
    (length (outstanding [Acquired 2; Acquired 1]) = 2 → a = nullptr).
Proof.
  assert (1 ∈ Pool._inUse all_lent) as Hin by (simpl; apply elem_of_cons; by left).
  split_and!; [exact fresh_addrs_1_2|exact all_lent_reaches|done|exact Hin|].
  by apply (Pool_release_then_acquire [1; 2] _ _ 1 fresh_addrs_1_2 all_lent_reaches).
Defined.

Lemma Pool_scenario_capacity2_witness :
  fresh_addrs [1; 2] ∧
  scenario_capacity2 (Pool.Pool (OBJ:=BigObject) [1; 2])
    = Ok (1, 2, nullptr, 1, 2) ∧
  1 ≠ nullptr ∧ 2 ≠ nullptr.
Proof.
  split; [exact fresh_addrs_1_2|].
  apply (Pool_scenario_capacity2 (OBJ:=BigObject) 1 2 fresh_addrs_1_2).
Defined.

Lemma array_2_lent_reaches : Pool.reaches [2; 1] [Acquired 2] array_2_lent.
Proof. eapply Pool.reaches_acquire; [apply Pool.reaches_Pool|reflexivity]. Defined.

Lemma multiset_2_lent_reaches :
  MultisetPool.reaches [2; 1] [Released 1; Acquired 2; Acquired 1] multiset_2_lent.
Proof.
  eapply MultisetPool.reaches_release;
    [eapply MultisetPool.reaches_acquire;
       [eapply MultisetPool.reaches_acquire;
          [apply MultisetPool.reaches_Pool|reflexivity]
       |reflexivity]
    |reflexivity].
Defined.

Lemma pools_agree_on_same_loans_witness :
  fresh_addrs [2; 1] ∧
  Pool.reaches [2; 1] [Acquired 2] array_2_lent ∧
  MultisetPool.reaches [2; 1] [Released 1; Acquired 2; Acquired 1]
    multiset_2_lent ∧
  outstanding [Acquired 2] ≡ₚ outstanding [Released 1; Acquired 2; Acquired 1] ∧
  (2 ∈ Pool._inUse array_2_lent ↔ 2 ∈ MultisetPool._inUse multiset_2_lent) ∧
  (∃ ra sa' rm sm',
     Pool.acquire array_2_lent = Ok (ra, sa') ∧
     MultisetPool.acquire multiset_2_lent = Ok (rm, sm') ∧
     (ra = nullptr ↔ rm = nullptr) ∧ ra = rm).
Proof.
  assert (outstanding [Acquired 2]
            ≡ₚ outstanding [Released 1; Acquired 2; Acquired 1]) as Hsame.
  { vm_compute. reflexivity. }
  assert (length (live (Pool._available array_2_lent)) ≤ 1) as Hone.
  { vm_compute. lia. }
  split_and!;
    [exact fresh_addrs_2_1|exact array_2_lent_reaches
    |exact multiset_2_lent_reaches|exact Hsame|..].
  - apply (pools_agree_on_same_loans [2; 1] _ _ _ _ fresh_addrs_2_1
             array_2_lent_reaches multiset_2_lent_reaches Hsame).
  - destruct (pools_agree_on_same_loans [2; 1] _ _ _ _ fresh_addrs_2_1
                array_2_lent_reaches multiset_2_lent_reaches Hsame)
      as (_ & _ & _ & ra & sa' & rm & sm' & Ha & Hm & _ & _ & Hnull & _ & _ & _
          & Heq & _).
    exists ra, sa', rm, sm'. split_and!; [done..|]. by apply Heq.
Defined.

(** * Further properties of the three files *)

(** ** The free store *)

Lemma heap_init_dom {OBJ} (c : OBJ) (addrs : list nat) :
  dom (list_to_map ((λ a, (a, c)) <$> addrs) : gmap nat OBJ)
    = list_to_set addrs.
Proof.
  rewrite dom_list_to_map_L. f_equal.
  rewrite <- list_fmap_compose. by rewrite list_fmap_id.
Qed.

(** Deleting what a structure holds, when its non-empty slots are distinct
    objects of the free store: each of them goes, once. *)
Lemma for_each_delete_live {OBJ} (l : list nat) (hp : gmap nat OBJ) :
  NoDup (live l) → (∀ a, a ∈ live l → a ∈ dom hp) →
  ∃ hp', for_each_delete l hp = Some hp' ∧
    dom hp' = dom hp ∖ list_to_set (live l).
Proof.
  revert hp. induction l as [|p l IH]; intros hp Hnd Hdom; simpl.
  - exists hp. split; [done|]. simpl. by rewrite difference_empty_L.
  - unfold default_delete, live in *. destruct (decide (p = nullptr)) as [->|Hp].
    + rewrite filter_cons_False in Hnd, Hdom |- * by (intros ?; done).
      simpl. by apply IH.
    + rewrite filter_cons_True in Hnd, Hdom |- * by done.
      apply NoDup_cons in Hnd as [Hnotin Hnd].
      assert (p ∈ dom hp) as [o Ho]%elem_of_dom by (apply Hdom; by left).
      rewrite Ho. simpl.
      destruct (IH (delete p hp) Hnd) as (hp' & -> & Hdom').
      { intros a Ha. rewrite dom_delete_L. apply elem_of_difference. split.
        - apply Hdom. by right.
        - intros ->%elem_of_singleton. done. }
      exists hp'. split; [done|]. rewrite Hdom', dom_delete_L. simpl.
      by rewrite difference_difference_l_L.
Qed.

(** Both structures of a tracked pool deleted, [_available] first: every
    instance is deleted once and the free store is left empty. *)
Lemma dtor_tracked {OBJ} (addrs : list nat) h available inUse
    (hp : gmap nat OBJ) :
  fresh_addrs addrs → tracked addrs h available inUse →
  dom hp = list_to_set addrs →
  (hp1 ← for_each_delete available hp; for_each_delete inUse hp1) = Some ∅.
Proof.
  intros Hfresh Ht Hdom.
  pose proof (tracked_live_NoDup addrs Hfresh _ _ _ Ht) as Hnd.
  apply NoDup_app in Hnd as (Hnda & Hdisj & Hndi).
  pose proof (tracked_split _ _ _ _ Ht) as Hsplit.
  assert (∀ a, a ∈ addrs ↔ a ∈ live available ∨ a ∈ live inUse) as Hin.
  { intros a. by rewrite <- Hsplit, elem_of_app. }
  destruct (for_each_delete_live available hp Hnda) as (hp1 & -> & Hdom1).
  { intros a Ha. rewrite Hdom. apply elem_of_list_to_set, Hin. by left. }
  simpl. destruct (for_each_delete_live inUse hp1 Hndi) as (hp2 & -> & Hdom2).
  { intros a Ha. rewrite Hdom1, Hdom. apply elem_of_difference. split.
    - apply elem_of_list_to_set, Hin. by right.
    - rewrite elem_of_list_to_set. intros Ha'. by apply (Hdisj a). }
  f_equal. apply dom_empty_inv_L. rewrite Hdom2, Hdom1, Hdom.
  apply set_eq. intros a. rewrite !elem_of_difference, !elem_of_list_to_set, Hin.
  split; [|by intros ?%elem_of_empty]. intros [[[?|?] ?] ?]; done.
Qed.

Section array_pool_store.
Context {OBJ : Type} `{!Resettable OBJ}.
Context (addrs : list nat) (Hfresh : fresh_addrs addrs).
Implicit Types (s : Pool.state OBJ) (h : history).

(** acquire() and release() create and destroy no object. *)
Lemma Pool_heap_dom h s :
  Pool.reaches addrs h s → dom (Pool.heap s) = list_to_set addrs.
Proof.
  induction 1 as [|h s r s' Hreach IH Hacq|h s obj s' Hreach IH Hrel].
  - apply heap_init_dom.
  - pose proof (Pool_reaches_tracked addrs Hfresh _ _ Hreach) as Ht.
    destruct (Pool_acquire_cases addrs _ _ Ht)
      as [[_ Heq]|(i & mem & j & _ & _ & Heq)];
      rewrite Heq in Hacq; by simplify_eq.
  - pose proof (Pool_reaches_tracked addrs Hfresh _ _ Hreach) as Ht.
    destruct (Pool_release_cases addrs _ _ obj Ht)
      as [[_ Heq]|[(_ & _ & Heq)|(_ & i & j & _ & _ & Heq)]];
      rewrite Heq in Hrel; simplify_eq; [done|].
    simpl. by rewrite dom_alter_L.
Qed.

End array_pool_store.

(** ** Moving an instance from one structure to the other *)

Lemma live_full (l : list nat) :
  length (live l) = length l → nullptr ∉ l.
Proof.
  intros Hlen Hin.
  pose proof (length_filter_lt (λ p, p ≠ nullptr) l nullptr Hin) as Hlt.
  unfold live in Hlen. rewrite Hlen in Hlt. apply (Nat.lt_irrefl (length l)).
  apply Hlt. by intros ?.
Qed.

(** [x] leaves slot [i] of [src] and goes to the empty slot [j] of [dst]. *)
Lemma slots_move (src dst src' dst' : list nat) i x j :
  NoDup (live src ++ live dst) →
  src !! i = Some x → x ≠ nullptr → dst !! j = Some nullptr →
  src' ≡ₚ nullptr :: delete i src → dst' ≡ₚ x :: delete j dst →
  (x ∉ dst) ∧ x ∈ dst' ∧ (x ∉ src') ∧
  length (live src) = S (length (live src')) ∧
  length (live dst') = S (length (live dst)).
Proof.
  intros Hnd Hi Hx Hj Hsrc Hdst.
  pose proof (live_take _ _ _ _ Hi Hx Hsrc) as Htake.
  pose proof (live_put _ _ _ _ Hj Hx Hdst) as Hput.
  apply NoDup_app in Hnd as (Hnds & Hdisj & _).
  assert (x ∈ live src) as Hin.
  { apply elem_of_live. split; [done|]. by eapply list_elem_of_lookup_2. }
  split_and!.
  - intros Hin'. apply (Hdisj x Hin). by apply elem_of_live.
  - assert (x ∈ live dst') as [_ ?]%elem_of_live; [|done].
    rewrite Hput. by left.
  - intros Hin'. rewrite Htake in Hnds. apply NoDup_cons in Hnds as [Hnot _].
    apply Hnot. by apply elem_of_live.
  - by rewrite Htake.
  - by rewrite Hput.
Qed.

(** ** Pool.h: more on acquire() and release() *)

Section array_pool_more.
Context {OBJ : Type} `{!Resettable OBJ}.
Implicit Types (s : Pool.state OBJ) (h : history).

(** X1: [~Pool()] in a reachable state deletes every one of the N instances
    once, the lent ones as well; no delete is undefined and no instance is
    left on the free store. *)
Theorem Pool_dtor_frees_all (addrs : list nat) h s :
  fresh_addrs addrs → Pool.reaches addrs h s → Pool_dtor s = Some ∅.
Proof.
  intros Hfresh Hreach. unfold Pool_dtor.
  eapply dtor_tracked; [done| |by eapply Pool_heap_dom].
  by apply (Pool_reaches_tracked addrs Hfresh _ _ Hreach).
Qed.

(** X2: acquire() and release() create and destroy no object: in every
    reachable state the objects of the free store are the N instances of
    construction, and every outstanding reference is the address of one. *)
Theorem Pool_loans_are_objects (addrs : list nat) h s :
  fresh_addrs addrs → Pool.reaches addrs h s →
  dom (Pool.heap s) = list_to_set addrs ∧
  ∀ r, r ∈ outstanding h → is_Some (Pool.heap s !! r).
Proof.
  intros Hfresh Hreach.
  pose proof (Pool_heap_dom addrs Hfresh _ _ Hreach) as Hdom.
  split; [done|]. intros r Hr. apply elem_of_dom. rewrite Hdom.
  apply elem_of_list_to_set.
  pose proof (Pool_reaches_tracked addrs Hfresh _ _ Hreach) as Ht.
  rewrite <- (tracked_split _ _ _ _ Ht), (tracked_loans _ _ _ _ Ht).
  apply elem_of_app. by right.
Qed.

(** X3: a successful acquire() returns an instance that was available and
    not lent; afterwards [_inUse] holds it and [_available] does not, one
    instance fewer is available and one more is lent. *)
Theorem Pool_acquire_moves (addrs : list nat) h s r s' :
  fresh_addrs addrs → Pool.reaches addrs h s →
  Pool.acquire s = Ok (r, s') → r ≠ nullptr →
  r ∈ Pool._available s ∧ (r ∉ Pool._inUse s) ∧
  r ∈ Pool._inUse s' ∧ (r ∉ Pool._available s') ∧
  length (live (Pool._available s)) = S (length (live (Pool._available s'))) ∧
  length (live (Pool._inUse s')) = S (length (live (Pool._inUse s))).
Proof.
  intros Hfresh Hreach Hacq Hr.
  pose proof (Pool_reaches_tracked addrs Hfresh _ _ Hreach) as Ht.
  pose proof (tracked_live_NoDup addrs Hfresh _ _ _ Ht) as Hnd.
  destruct (Pool_acquire_cases addrs _ _ Ht)
    as [[_ Heq]|(i & mem & j & Hi & Hj & Heq)];
    rewrite Heq in Hacq; simplify_eq.
  apply find_live_Some in Hi as (Hi & _ & _).
  apply list_find_Some in Hj as (Hj & _). simpl.
  split; [by eapply list_elem_of_lookup_2|].
  eapply (slots_move _ _ _ _ i r j); [done..| |];
    apply insert_Permutation; by eapply lookup_lt_Some.
Qed.

(** X4: release() of a lent instance returns; afterwards [_available] holds
    the instance and [_inUse] does not, one instance more is available and
    one fewer is lent. *)
Theorem Pool_release_moves (addrs : list nat) h s obj :
  fresh_addrs addrs → Pool.reaches addrs h s →
  obj ≠ nullptr → obj ∈ Pool._inUse s →
  ∃ s', Pool.release obj s = Ok s' ∧
    (obj ∉ Pool._available s) ∧
    obj ∈ Pool._available s' ∧ (obj ∉ Pool._inUse s') ∧
    length (live (Pool._inUse s)) = S (length (live (Pool._inUse s'))) ∧
    length (live (Pool._available s')) = S (length (live (Pool._available s))).
Proof.
  intros Hfresh Hreach Hobj Hin.
  pose proof (Pool_reaches_tracked addrs Hfresh _ _ Hreach) as Ht.
  pose proof (tracked_live_NoDup addrs Hfresh _ _ _ Ht) as Hnd.
  rewrite Permutation_app_comm in Hnd.
  destruct (Pool_release_cases addrs _ _ obj Ht)
    as [[? _]|[(? & _)|(_ & i & j & Hi & Hj & Heq)]]; [done..|].
  eexists. split; [exact Heq|].
  apply list_find_Some in Hi as (Hi & _).
  apply list_find_Some in Hj as (Hj & _). simpl.
  eapply (slots_move _ _ _ _ i obj j); [done..| |];
    apply insert_Permutation; by eapply lookup_lt_Some.
Qed.

(** X5: release() of a non-null reference that is not outstanding (never
    acquired, foreign, available, or released already) returns and leaves
    the pool, the instances and the log of reset() calls as they are. *)
Theorem Pool_release_ignored (addrs : list nat) h s obj :
  fresh_addrs addrs → Pool.reaches addrs h s →
  obj ≠ nullptr → obj ∉ outstanding h →
  Pool.release obj s = Ok s.
Proof.
  intros Hfresh Hreach Hobj Hnot. apply Pool_release_not_in_use. intros Hin.
  pose proof (Pool_reaches_tracked addrs Hfresh _ _ Hreach) as Ht.
  apply Hnot. rewrite <- (tracked_loans _ _ _ _ Ht). by apply elem_of_live.
Qed.

(** X6: release(nullptr) is harmless exactly when all N instances are lent,
    as they are right after an acquire() that returned [nullptr]; with
    fewer lent it calls reset() through the null pointer. *)
Theorem Pool_release_nullptr_cases (addrs : list nat) h s :
  fresh_addrs addrs → Pool.reaches addrs h s →
  (length (outstanding h) = length addrs → Pool.release nullptr s = Ok s) ∧
  (length (outstanding h) < length addrs →
     Pool.release nullptr s = Fault NullMemberCall) ∧
  (∀ s', Pool.acquire s = Ok (nullptr, s') → Pool.release nullptr s' = Ok s').
Proof.
  intros Hfresh Hreach.
  pose proof (Pool_reaches_tracked addrs Hfresh _ _ Hreach) as Ht.
  assert (length (outstanding h) = length addrs → Pool.release nullptr s = Ok s)
    as Hfull.
  { intros Hlen. apply Pool_release_not_in_use, live_full.
    by rewrite (tracked_loans _ _ _ _ Ht), (tracked_inUse_length _ _ _ _ Ht). }
  split_and!; [done| |].
  - intros Hlt. apply Pool_release_nullptr.
    destruct (find_null_Some (Pool._inUse s)) as [j Hj].
    { by rewrite (tracked_loans _ _ _ _ Ht), (tracked_inUse_length _ _ _ _ Ht). }
    apply list_find_Some in Hj as (Hj & _). by eapply list_elem_of_lookup_2.
  - intros s' Hacq.
    destruct (Pool_exhausted_full addrs Hfresh _ _ _ Hreach Hacq) as [-> Hlen].
    by apply Hfull.
Qed.

End array_pool_more.

(** ** Pool.h: acquire() then release(), and the order of acquisition *)

Lemma find_first_live (k : nat) (x : nat) (rest : list nat) :
  x ≠ nullptr →
  list_find (λ p, p ≠ nullptr) (replicate k nullptr ++ x :: rest) = Some (k, x).
Proof.
  intros Hx. apply list_find_Some. split_and!; [|done|].
  - rewrite lookup_app_r by (rewrite length_replicate; lia).
    by rewrite length_replicate, Nat.sub_diag.
  - intros j y Hj Hlt.
    rewrite lookup_app_l in Hj by (rewrite length_replicate; lia).
    apply lookup_replicate in Hj as [-> _]. by intros ?.
Qed.

Lemma find_first_null (used : list nat) (m : nat) :
  nullptr ∉ used →
  list_find (λ p, p = nullptr) (used ++ replicate (S m) nullptr)
    = Some (length used, nullptr).
Proof.
  intros Hused. apply list_find_Some. split_and!; [|done|].
  - rewrite lookup_app_r by lia. by rewrite Nat.sub_diag.
  - intros j y Hj Hlt -> . rewrite lookup_app_l in Hj by lia.
    apply Hused. by eapply list_elem_of_lookup_2.
Qed.

Section array_pool_order.
Context {OBJ : Type} `{!Resettable OBJ}.
Implicit Types (s : Pool.state OBJ) (h : history).

(** With the empty slots of [_available] in front and those of [_inUse] at
    the back, acquire() takes the next instance of [_available] and appends
    it to the instances of [_inUse]. *)
Lemma Pool_acquire_next k x rest used m (hp : gmap nat OBJ) rs :
  x ≠ nullptr → nullptr ∉ used →
  Pool.acquire (Pool.mk (replicate k nullptr ++ x :: rest)
                        (used ++ replicate (S m) nullptr) hp rs)
  = Ok (x, Pool.mk (replicate (S k) nullptr ++ rest)
                   ((used ++ [x]) ++ replicate m nullptr) hp rs).
Proof.
  intros Hx Hused. unfold Pool.acquire.
  cbn [Pool._available Pool._inUse Pool.heap Pool.resets].
  rewrite (find_first_live k x rest Hx), (find_first_null used m Hused).
  do 2 f_equal. f_equal.
  - replace k with (length (replicate k nullptr) + 0) at 1
      by (rewrite length_replicate; lia).
    rewrite insert_app_r.
    change (<[0:=nullptr]> (x :: rest)) with (nullptr :: rest).
    by rewrite replicate_S_end, <- app_assoc.
  - replace (length used) with (length used + 0) by lia.
    rewrite insert_app_r.
    change (<[0:=x]> (replicate (S m) nullptr)) with (x :: replicate m nullptr).
    by rewrite <- app_assoc.
Qed.

Lemma Pool_acquire_n_next k rest1 rest2 used (hp : gmap nat OBJ) rs :
  nullptr ∉ rest1 → nullptr ∉ used →
  Pool.acquire_n (length rest1)
    (Pool.mk (replicate k nullptr ++ rest1 ++ rest2)
             (used ++ replicate (length rest1 + length rest2) nullptr) hp rs)
  = Ok (rest1,
        Pool.mk (replicate (k + length rest1) nullptr ++ rest2)
                ((used ++ rest1) ++ replicate (length rest2) nullptr) hp rs).
Proof.
  revert k used. induction rest1 as [|x rest1 IH]; intros k used Hrest Hused.
  - simpl. by rewrite Nat.add_0_r, app_nil_r.
  - apply not_elem_of_cons in Hrest as [Hx Hrest].
    cbn [Pool.acquire_n length app Nat.add].
    rewrite Pool_acquire_next by done. cbn [mbind result_bind].
    rewrite IH; [|done|].
    + cbn [mbind result_bind]. unfold mret, result_ret.
      by rewrite <- (app_assoc used [x] rest1), Nat.add_succ_r.
    + rewrite not_elem_of_app. split; [done|].
      apply not_elem_of_cons. split; [done|apply not_elem_of_nil].
Qed.

(** X7: from construction, acquire() hands out the instances in the order
    of construction: [n] calls return the first [n] instances and leave the
    others, in their order, behind [n] empty slots of [_available]. *)
Theorem Pool_acquires_in_construction_order (addrs : list nat) (n : nat) :
  fresh_addrs addrs → n ≤ length addrs →
  Pool.acquire_n n (Pool.Pool addrs)
  = Ok (take n addrs,
        Pool.mk (replicate n nullptr ++ drop n addrs)
                (take n addrs ++ replicate (length addrs - n) nullptr)
                (Pool.heap (Pool.Pool addrs)) []).
Proof.
  intros [_ Hnull] Hn.
  pose proof (Pool_acquire_n_next 0 (take n addrs) (drop n addrs) []
                (Pool.heap (Pool.Pool addrs)) []) as Hrun.
  rewrite length_take_le, length_drop, take_drop in Hrun by done.
  replace (n + (length addrs - n)) with (length addrs) in Hrun by lia.
  apply Hrun; [|apply not_elem_of_nil].
  intros Hin. apply Hnull. by eapply subseteq_take.
Qed.

(** X8: in a reachable state with an instance available, acquire() followed
    by release() of the reference it returned gives [_inUse] back as it
    was, and [_available] with the same instances, possibly in other slots;
    the instance was reset once. *)
Theorem Pool_acquire_then_release (addrs : list nat) h s :
  fresh_addrs addrs → Pool.reaches addrs h s →
  length (outstanding h) < length addrs →
  ∃ r s1 s2,
    Pool.acquire s = Ok (r, s1) ∧ r ≠ nullptr ∧ Pool.release r s1 = Ok s2 ∧
    Pool._inUse s2 = Pool._inUse s ∧
    Pool._available s2 ≡ₚ Pool._available s ∧
    Pool.resets s2 = r :: Pool.resets s ∧
    Pool.heap s2 = alter reset r (Pool.heap s).
Proof.
  intros Hfresh Hreach Hlt.
  pose proof (Pool_reaches_tracked addrs Hfresh _ _ Hreach) as Ht.
  pose proof (tracked_live_NoDup addrs Hfresh _ _ _ Ht) as Hnd.
  destruct (Pool_acquire_cases addrs _ _ Ht)
    as [[Hnil _]|(i & r & j & Hi & Hj & Hacq)].
  { pose proof (tracked_count addrs _ _ _ Ht) as Hc.
    rewrite Hnil, (tracked_loans _ _ _ _ Ht) in Hc. simpl in Hc. lia. }
  apply find_live_Some in Hi as (Hi & Hr & Hin).
  apply list_find_Some in Hj as (Hj & _).
  pose proof (Pool_tracked_acquire addrs _ _ _ _ Ht Hacq) as Ht1.
  assert (r ∉ Pool._inUse s) as Hnot.
  { intros Hin'. apply NoDup_app in Hnd as (_ & Hdisj & _).
    apply (Hdisj r Hin). by apply elem_of_live. }
  destruct (Pool_release_cases addrs _ _ r Ht1)
    as [[Hnotin _]|[(? & _)|(_ & i' & j' & Hi' & Hj' & Hrel)]]; [|done|].
  { destruct Hnotin. simpl. eapply list_elem_of_lookup_2.
    apply list_lookup_insert_eq. by eapply lookup_lt_Some. }
  simpl in Hi', Hj', Hrel. eexists r, _, _.
  split_and!; [exact Hacq|done|exact Hrel| | |done|done].
  - simpl. apply list_find_Some in Hi' as (Hi' & _).
    destruct (decide (i' = j)) as [->|Hne].
    + by rewrite list_insert_insert_eq, list_insert_id.
    + rewrite list_lookup_insert_ne in Hi' by done.
      destruct Hnot. by eapply list_elem_of_lookup_2.
  - simpl. apply list_find_Some in Hj' as (Hj' & _).
    etrans; [apply insert_Permutation; by eapply lookup_lt_Some|].
    etrans; [|symmetry; apply (delete_Permutation _ i r Hi)].
    apply Permutation_skip, (Permutation_cons_inv (a:=nullptr)).
    etrans; [symmetry; apply (delete_Permutation _ j' nullptr Hj')|].
    apply insert_Permutation. by eapply lookup_lt_Some.
Qed.

End array_pool_order.

(** ** StackVsHeapAlloc.cpp: the pool loop of measurePerformance *)

Lemma processObj_object (obj : nat) (hp : gmap nat BigObject) :
  obj ∈ dom hp → processObj obj hp = Some (alter (setFirstChar 97) obj hp).
Proof.
  intros [o Ho]%elem_of_dom. unfold processObj. rewrite Ho. f_equal.
  apply map_eq. intros a. destruct (decide (a = obj)) as [->|Hne].
  - by rewrite lookup_insert_eq, lookup_alter_eq, Ho.
  - by rewrite lookup_insert_ne, lookup_alter_ne.
Qed.

Lemma processObj_nullptr (hp : gmap nat BigObject) :
  nullptr ∉ dom hp → processObj nullptr hp = None.
Proof. intros Hnot%not_elem_of_dom. unfold processObj. by rewrite Hnot. Qed.

Lemma processed_dom (l : list nat) (hp : gmap nat BigObject) :
  dom (processed l hp) = dom hp.
Proof.
  unfold processed. revert hp. induction l as [|x l IH]; intros hp; simpl; [done|].
  by rewrite IH, dom_alter_L.
Qed.

Lemma processed_other (l : list nat) (hp : gmap nat BigObject) a :
  a ∉ l → processed l hp !! a = hp !! a.
Proof.
  unfold processed. revert hp. induction l as [|x l IH]; intros hp Ha; simpl; [done|].
  apply not_elem_of_cons in Ha as [Hne Ha].
  by rewrite IH, lookup_alter_ne.
Qed.

Lemma processed_first_char (l : list nat) (hp : gmap nat BigObject) a :
  a ∈ l → a ∈ dom hp →
  ∃ o, processed l hp !! a = Some o ∧ byteArray o 0 = 97.
Proof.
  revert hp. induction l as [|x l IH]; intros hp Ha Hdom; [by apply elem_of_nil in Ha|].
  destruct (decide (a ∈ l)) as [Hin|Hnot].
  - apply (IH (alter (setFirstChar 97) x hp) Hin). by rewrite dom_alter_L.
  - apply elem_of_cons in Ha as [->|?]; [|done].
    apply elem_of_dom in Hdom as [o Ho].
    exists (setFirstChar 97 o). split; [|done].
    change (processed (x :: l) hp) with (processed l (alter (setFirstChar 97) x hp)).
    by rewrite processed_other, lookup_alter_eq, Ho.
Qed.

Lemma pool_allocations_add (n m : nat) (s : Pool.state BigObject) :
  pool_allocations (n + m) s = pool_allocations n s ≫= pool_allocations m.
Proof.
  revert s. induction n as [|n IH]; intros s; [done|].
  cbn [Nat.add pool_allocations].
  destruct (defined (Pool.acquire s)) as [[r s1]|]; [|done]. cbn [mbind option_bind].
  destruct (processObj r (Pool.heap s1)) as [hp|]; [|done]. cbn [mbind option_bind].
  apply IH.
Qed.

(** With the empty slots of [_available] in front and those of [_inUse] at
    the back, as from construction on without a release(). *)
Lemma pool_allocations_next k rest1 rest2 used (hp : gmap nat BigObject) rs :
  nullptr ∉ rest1 → nullptr ∉ used → (∀ a, a ∈ rest1 → a ∈ dom hp) →
  pool_allocations (length rest1)
    (Pool.mk (replicate k nullptr ++ rest1 ++ rest2)
             (used ++ replicate (length rest1 + length rest2) nullptr) hp rs)
  = Some (Pool.mk (replicate (k + length rest1) nullptr ++ rest2)
                  ((used ++ rest1) ++ replicate (length rest2) nullptr)
                  (processed rest1 hp) rs).
Proof.
  revert k used hp.
  induction rest1 as [|x rest1 IH]; intros k used hp Hrest Hused Hdom.
  - simpl. by rewrite Nat.add_0_r, app_nil_r.
  - apply not_elem_of_cons in Hrest as [Hx Hrest].
    cbn [pool_allocations length app Nat.add].
    rewrite Pool_acquire_next by done.
    cbn [defined mbind option_bind Pool.heap Pool._available Pool._inUse Pool.resets].
    rewrite processObj_object by (apply Hdom; by left).
    cbn [mbind option_bind].
    rewrite IH; [|done| |].
    + by rewrite <- (app_assoc used [x] rest1), Nat.add_succ_r.
    + rewrite not_elem_of_app. split; [done|].
      apply not_elem_of_cons. split; [done|apply not_elem_of_nil].
    + intros a Ha. rewrite dom_alter_L. apply Hdom. by right.
Qed.

(** X9: the loop of [measurePerformance] over a pool just constructed, run
    for no more rounds than the pool has instances (in the source: as many),
    is defined: every [processObj] gets the address of an instance, in the
    order of construction.  Afterwards these instances are lent and start
    with 'a', the others are available and as constructed, and reset() was
    not called. *)
Theorem pool_allocations_within (addrs : list nat) (n : nat) :
  fresh_addrs addrs → n ≤ length addrs →
  ∃ s, pool_allocations n (Pool.Pool addrs) = Some s ∧
    Pool._available s = replicate n nullptr ++ drop n addrs ∧
    Pool._inUse s = take n addrs ++ replicate (length addrs - n) nullptr ∧
    Pool.resets s = [] ∧
    (∀ a, a ∈ take n addrs →
       ∃ o, Pool.heap s !! a = Some o ∧ byteArray o 0 = 97) ∧
    (∀ a, a ∈ drop n addrs → Pool.heap s !! a = Some OBJ_ctor).
Proof.
  intros [Hnd Hnull] Hn.
  assert (dom (Pool.heap (Pool.Pool (OBJ:=BigObject) addrs)) = list_to_set addrs)
    as Hdom by apply heap_init_dom.
  pose proof (pool_allocations_next 0 (take n addrs) (drop n addrs) []
                (Pool.heap (Pool.Pool addrs)) []) as Hrun.
  rewrite length_take_le, length_drop, take_drop in Hrun by done.
  replace (n + (length addrs - n)) with (length addrs) in Hrun by lia.
  eexists. split; [apply Hrun|];
    cbn [Pool._available Pool._inUse Pool.heap Pool.resets].
  - intros Hin. apply Hnull. by eapply subseteq_take.
  - apply not_elem_of_nil.
  - intros a Ha. rewrite Hdom. apply elem_of_list_to_set. by eapply subseteq_take.
  - split_and!; [done..| |].
    + intros a Ha. apply processed_first_char; [done|].
      rewrite Hdom. apply elem_of_list_to_set. by eapply subseteq_take.
    + intros a Ha. rewrite processed_other.
      * apply (elem_of_list_to_map_1 (M:=gmap nat)).
        { rewrite <- list_fmap_compose. by rewrite list_fmap_id. }
        apply list_elem_of_fmap. exists a. split; [done|]. by eapply subseteq_drop.
      * rewrite <- (take_drop n addrs) in Hnd.
        apply NoDup_app in Hnd as (_ & Hdisj & _). intros Hin. by apply (Hdisj a).
Qed.

(** X10: run for more rounds than the pool has instances, the loop is
    undefined: the acquire() of round N+1 returns [nullptr], which
    [processObj] dereferences. *)
Theorem pool_allocations_beyond (addrs : list nat) (n : nat) :
  fresh_addrs addrs → length addrs < n →
  pool_allocations n (Pool.Pool addrs) = None.
Proof.
  intros [Hnd Hnull] Hn.
  assert (dom (Pool.heap (Pool.Pool (OBJ:=BigObject) addrs)) = list_to_set addrs)
    as Hdom by apply heap_init_dom.
  replace n with (length addrs + S (n - S (length addrs))) by lia.
  rewrite pool_allocations_add.
  assert (Pool.Pool (OBJ:=BigObject) addrs
          = Pool.mk (replicate 0 nullptr ++ addrs ++ [])
              ([] ++ replicate (length addrs + length (@nil nat)) nullptr)
              (Pool.heap (Pool.Pool addrs)) []) as Hshape.
  { unfold Pool.Pool. simpl. by rewrite app_nil_r, Nat.add_0_r. }
  rewrite Hshape, pool_allocations_next; [|done|apply not_elem_of_nil|].
  - cbn [mbind option_bind pool_allocations].
    unfold Pool.acquire. cbn [Pool._available].
    rewrite app_nil_r, Nat.add_0_l.
    assert (list_find (λ p, p ≠ nullptr) (replicate (length addrs) nullptr) = None)
      as ->.
    { apply find_live_None, live_replicate_null. }
    cbn [defined mbind option_bind Pool.heap].
    rewrite processObj_nullptr; [done|].
    rewrite processed_dom, Hdom. by rewrite elem_of_list_to_set.
  - intros a Ha. rewrite Hdom. by apply elem_of_list_to_set.
Qed.

(** ** MultisetPool.h: reachable states *)

Lemma MultisetPool_release_not_in_use {OBJ} `{!Resettable OBJ}
    (s : MultisetPool.state OBJ) obj :
  obj ∉ MultisetPool._inUse s → MultisetPool.release obj s = Ok s.
Proof.
  intros Hnot. unfold MultisetPool.release.
  destruct (list_find _ (MultisetPool._inUse s)) as [[i mem]|] eqn:Hfind; [|done].
  apply list_find_Some in Hfind as (Hi & -> & _).
  destruct Hnot. by eapply list_elem_of_lookup_2.
Qed.

Lemma MultisetPool_release_nullptr {OBJ} `{!Resettable OBJ}
    (s : MultisetPool.state OBJ) :
  nullptr ∈ MultisetPool._inUse s →
  MultisetPool.release nullptr s = Fault NullMemberCall.
Proof.
  intros Hin. unfold MultisetPool.release.
  destruct (list_find_elem_of (λ p, p = nullptr) _ nullptr Hin eq_refl)
    as [[i mem] ->]. done.
Qed.

Lemma multiset_fill_null_sorted (addrs acc : list nat) :
  StronglySorted le acc →
  StronglySorted le (foldl (λ m _, multiset_insert nullptr m) acc addrs).
Proof.
  revert acc. induction addrs as [|a addrs IH]; intros acc Hacc; simpl; [done|].
  by apply IH, multiset_insert_sorted.
Qed.

Section multiset_pool_reaches.
Context {OBJ : Type} `{!Resettable OBJ}.
Context (addrs : list nat) (Hfresh : fresh_addrs addrs).
Implicit Types (s : MultisetPool.state OBJ) (h : history).

Lemma MultisetPool_reaches_earlier h2 h1 s :
  MultisetPool.reaches addrs (h2 ++ h1) s →
  ∃ s1, MultisetPool.reaches addrs h1 s1.
Proof.
  revert s. induction h2 as [|e h2 IH]; simpl; intros s Hr; [eauto|].
  inversion Hr; subst; eauto.
Qed.

(** [_inUse] stays in the order of the addresses as well. *)
Lemma MultisetPool_reaches_inUse_sorted h s :
  MultisetPool.reaches addrs h s → StronglySorted le (MultisetPool._inUse s).
Proof.
  induction 1 as [|h s r s' Hreach IH Hacq|h s obj s' Hreach IH Hrel].
  - simpl. apply multiset_fill_null_sorted. constructor.
  - pose proof (MultisetPool_reaches_tracked addrs Hfresh _ _ Hreach) as Ht.
    destruct (MultisetPool_acquire_cases addrs _ _ Ht)
      as [[_ Heq]|(i & mem & j & Hi & Hj & Heq)];
      rewrite Heq in Hacq; simplify_eq; [done|].
    simpl. by apply multiset_insert_sorted, multiset_erase_sorted.
  - pose proof (MultisetPool_reaches_tracked addrs Hfresh _ _ Hreach) as Ht.
    destruct (MultisetPool_release_cases addrs _ _ obj Ht)
      as [[Hnotin Heq]|[(_ & _ & Heq)|(Hobj & i & j & Hi & Hj & Heq)]];
      rewrite Heq in Hrel; simplify_eq; [done|].
    simpl. by apply multiset_insert_sorted, multiset_erase_sorted.
Qed.

Lemma MultisetPool_heap_dom h s :
  MultisetPool.reaches addrs h s →
  dom (MultisetPool.heap s) = list_to_set addrs.
Proof.
  induction 1 as [|h s r s' Hreach IH Hacq|h s obj s' Hreach IH Hrel].
  - apply heap_init_dom.
  - pose proof (MultisetPool_reaches_tracked addrs Hfresh _ _ Hreach) as Ht.
    destruct (MultisetPool_acquire_cases addrs _ _ Ht)
      as [[_ Heq]|(i & mem & j & _ & _ & Heq)];
      rewrite Heq in Hacq; by simplify_eq.
  - pose proof (MultisetPool_reaches_tracked addrs Hfresh _ _ Hreach) as Ht.
    destruct (MultisetPool_release_cases addrs _ _ obj Ht)
      as [[_ Heq]|[(_ & _ & Heq)|(_ & i & j & _ & _ & Heq)]];
      rewrite Heq in Hrel; simplify_eq; [done|].
    simpl. by rewrite dom_alter_L.
Qed.

Lemma MultisetPool_run_total cs h s :
  MultisetPool.reaches addrs h s → Forall (λ c, c ≠ Release nullptr) cs →
  ∃ h' s', MultisetPool.run cs h s = Ok (h', s') ∧
    MultisetPool.reaches addrs h' s'.
Proof.
  intros Hr Hcs. revert h s Hr.
  induction Hcs as [|c cs Hc _ IH]; intros h s Hr; simpl; [eauto|].
  destruct c as [|obj]; simpl.
  - destruct (MultisetPool_acquire_total addrs Hfresh _ _ Hr)
      as (r & s' & -> & Hr'). simpl. eauto.
  - assert (obj ≠ nullptr) as Hobj by (intros ->; done).
    destruct (MultisetPool_release_total addrs Hfresh _ _ _ Hr Hobj)
      as (s' & -> & Hr'). simpl. eauto.
Qed.

(** A successful acquire() returns the available instance with the lowest
    address. *)
Lemma MultisetPool_acquire_available h s r s' :
  MultisetPool.reaches addrs h s →
  MultisetPool.acquire s = Ok (r, s') → r ≠ nullptr →
  r ∈ live (MultisetPool._available s) ∧
  (∀ a, a ∈ live (MultisetPool._available s) → r ≤ a) ∧
  live (MultisetPool._available s) ≡ₚ r :: live (MultisetPool._available s').
Proof.
  intros Hreach Hacq Hr.
  pose proof (MultisetPool_reaches_tracked addrs Hfresh _ _ Hreach) as Ht.
  destruct (MultisetPool_acquire_cases addrs _ _ Ht)
    as [[_ Heq]|(i & mem & j & Hi & Hj & Heq)];
    rewrite Heq in Hacq; simplify_eq.
  pose proof (find_live_Some _ _ _ Hi) as (Hi' & _ & Hin).
  split_and!; [done| |].
  - eapply multiset_find_lowest; [|done].
    by eapply MultisetPool_reaches_sorted.
  - simpl. eapply live_take; [done..|]. apply multiset_erase_insert_Permutation.
Qed.

Lemma MultisetPool_acquired_owned h s r :
  MultisetPool.reaches addrs h s → Acquired r ∈ h → r ≠ nullptr → r ∈ addrs.
Proof.
  intros Hreach Hin Hr.
  induction Hreach as [|h s r' s' Hreach IH Hacq|h s obj s' _ IH Hrel].
  - by apply elem_of_nil in Hin.
  - apply elem_of_cons in Hin as [[= <-]|Hin]; [|by apply IH].
    pose proof (MultisetPool_reaches_tracked addrs Hfresh _ _ Hreach) as Ht.
    rewrite <- (tracked_split _ _ _ _ Ht). apply elem_of_app. left.
    by eapply MultisetPool_acquire_available.
  - apply elem_of_cons in Hin as [?|Hin]; [done|by apply IH].
Qed.

Lemma MultisetPool_exhausted_full h s s' :
  MultisetPool.reaches addrs h s →
  MultisetPool.acquire s = Ok (nullptr, s') →
  s' = s ∧ length (outstanding h) = length addrs.
Proof.
  intros Hreach Hacq.
  pose proof (MultisetPool_reaches_tracked addrs Hfresh _ _ Hreach) as Ht.
  destruct (MultisetPool_acquire_cases addrs _ _ Ht)
    as [[Hnil Heq]|(i & mem & j & Hi & _ & Heq)];
    rewrite Heq in Hacq; simplify_eq.
  - split; [done|]. rewrite <- (tracked_loans _ _ _ _ Ht).
    pose proof (tracked_count addrs _ _ _ Ht) as Hc. rewrite Hnil in Hc. done.
  - by apply find_live_Some in Hi as (_ & ? & _).
Qed.

Lemma MultisetPool_full_exhausted h s :
  MultisetPool.reaches addrs h s → length (outstanding h) = length addrs →
  MultisetPool.acquire s = Ok (nullptr, s).
Proof.
  intros Hreach Hfull.
  pose proof (MultisetPool_reaches_tracked addrs Hfresh _ _ Hreach) as Ht.
  destruct (MultisetPool_acquire_cases addrs _ _ Ht)
    as [[Hnil Heq]|(i & mem & j & Hi & _ & Heq)]; [done|].
  apply find_live_Some in Hi as (_ & _ & Hin).
  pose proof (tracked_count addrs _ _ _ Ht) as Hc.
  rewrite (tracked_loans _ _ _ _ Ht), Hfull in Hc.
  destruct (live (MultisetPool._available s)); [by apply elem_of_nil in Hin|].
  simpl in Hc. lia.
Qed.

Lemma MultisetPool_never_exhausted h s r :
  MultisetPool.reaches addrs h s → never_exceeds (length addrs) h →
  Acquired r ∈ h → r ≠ nullptr.
Proof.
  intros Hreach Hne Hin.
  induction Hreach as [|h s r' s' Hreach IH Hacq|h s obj s' _ IH Hrel].
  - by apply elem_of_nil in Hin.
  - destruct Hne as [Hlt Hne].
    apply elem_of_cons in Hin as [[= <-]|Hin]; [|by apply IH].
    intros ->.
    apply (MultisetPool_exhausted_full _ _ _ Hreach) in Hacq as [_ Hfull]. lia.
  - apply elem_of_cons in Hin as [?|Hin]; [done|by apply IH].
Qed.

Lemma MultisetPool_run_reaches cs h s h' s' :
  MultisetPool.reaches addrs h s → MultisetPool.run cs h s = Ok (h', s') →
  MultisetPool.reaches addrs h' s'.
Proof.
  revert h s. induction cs as [|c cs IH]; simpl; intros h s Hr Hrun.
  - by simplify_eq.
  - destruct c as [|obj]; simpl in Hrun.
    + destruct (MultisetPool.acquire s) as [[r s1]|] eqn:Hacq; [|done].
      simpl in Hrun. eapply IH; [|done]. by eapply MultisetPool.reaches_acquire.
    + destruct (MultisetPool.release obj s) as [s1|] eqn:Hrel; [|done].
      simpl in Hrun. eapply IH; [|done]. by eapply MultisetPool.reaches_release.
Qed.

(** An acquire() called with fewer than N loans outstanding returned an
    instance, whatever came before and after it. *)
Lemma MultisetPool_acquire_under_capacity h2 r h1 s :
  MultisetPool.reaches addrs (h2 ++ Acquired r :: h1) s →
  length (outstanding h1) < length addrs → r ≠ nullptr.
Proof.
  intros Hreach Hlt ->.
  apply MultisetPool_reaches_earlier in Hreach as [s1 Hreach].
  inversion Hreach as [|h' s0 r' s' Hreach0 Hacq|]; subst.
  apply (MultisetPool_exhausted_full _ _ _ Hreach0) in Hacq as [_ Hfull]. lia.
Qed.

(** [n] more loans fit: the next [n] calls of acquire() return the [n]
    available instances with the lowest addresses, in ascending order. *)
Lemma MultisetPool_acquire_n_reaches n h s :
  MultisetPool.reaches addrs h s → length (outstanding h) + n ≤ length addrs →
  ∃ rs s', MultisetPool_acquire_n n s = Ok (rs, s') ∧ length rs = n ∧
    StronglySorted lt rs ∧
    live (MultisetPool._available s) ≡ₚ rs ++ live (MultisetPool._available s') ∧
    (∀ r a, r ∈ rs → a ∈ live (MultisetPool._available s') → r < a) ∧
    MultisetPool.reaches addrs ((Acquired <$> reverse rs) ++ h) s' ∧
    length (outstanding ((Acquired <$> reverse rs) ++ h))
      = length (outstanding h) + n.
Proof.
  revert h s. induction n as [|n IH]; intros h s Hreach Hle; simpl.
  - exists [], s. split_and!; try done; [constructor|].
    intros r a Hr. by apply elem_of_nil in Hr.
  - destruct (MultisetPool_acquire_total addrs Hfresh _ _ Hreach)
      as (r & s1 & Hacq & Hreach1).
    assert (r ≠ nullptr) as Hr.
    { intros ->.
      apply (MultisetPool_exhausted_full _ _ _ Hreach) in Hacq as [_ ?]. lia. }
    destruct (MultisetPool_acquire_available _ _ _ _ Hreach Hacq Hr)
      as (Hin & Hlow & Htake).
    pose proof (MultisetPool_reaches_tracked addrs Hfresh _ _ Hreach) as Ht.
    pose proof (tracked_live_NoDup addrs Hfresh _ _ _ Ht) as Hnd.
    apply NoDup_app in Hnd as (Hnd & _ & _). rewrite Htake in Hnd.
    apply NoDup_cons in Hnd as [Hnotin _].
    assert (∀ a, a ∈ live (MultisetPool._available s1) → r < a) as Hlt.
    { intros a Ha. assert (r ≤ a) by (apply Hlow; rewrite Htake; by right).
      assert (r ≠ a) by (intros ->; done). lia. }
    destruct (IH (Acquired r :: h) s1 Hreach1)
      as (rs & s2 & Hn & Hlen & Hsorted & Hperm & Hbelow & Hreach2 & Hout).
    { simpl. rewrite decide_False by done. simpl. lia. }
    exists (r :: rs), s2. rewrite Hacq. simpl. rewrite Hn. simpl.
    rewrite reverse_cons, fmap_app, <- app_assoc. simpl.
    split_and!; [done|by rewrite Hlen| | | |done|].
    + constructor; [done|]. apply Forall_forall. intros a Ha. apply Hlt.
      rewrite Hperm. apply elem_of_app. by left.
    + by rewrite Htake, Hperm.
    + intros r' a [->|Hr']%elem_of_cons Ha; [|by apply Hbelow].
      apply Hlt. rewrite Hperm. apply elem_of_app. by right.
    + rewrite Hout. simpl. rewrite decide_False by done. simpl. lia.
Qed.

End multiset_pool_reaches.

(** Slot [i] of [l] is overwritten, and then a slot that holds the new
    content is overwritten with the old one: the same contents as in [l]. *)
Lemma slots_swap_back (l l1 l2 : list nat) i j x y :
  l !! i = Some x → l1 ≡ₚ y :: delete i l →
  l1 !! j = Some y → l2 ≡ₚ x :: delete j l1 → l2 ≡ₚ l.
Proof.
  intros Hi Hl1 Hj Hl2.
  etrans; [exact Hl2|]. etrans; [|symmetry; apply (delete_Permutation _ i x Hi)].
  apply Permutation_skip, (Permutation_cons_inv (a:=y)).
  etrans; [symmetry; apply (delete_Permutation _ j y Hj)|]. done.
Qed.

(** ** MultisetPool.h: the properties of the pool *)

Section multiset_pool_more.
Context {OBJ : Type} `{!Resettable OBJ}.
Implicit Types (s : MultisetPool.state OBJ) (h : history).

(** X11: in every reachable state of the multiset-based pool each of the N
    instances is an element of exactly one of the two multisets, once, and
    the non-null elements of the two number N. *)
Theorem MultisetPool_exactly_one_holder (addrs : list nat) h s :
  fresh_addrs addrs → MultisetPool.reaches addrs h s →
  (∀ a, a ∈ addrs →
     holders a (MultisetPool._available s) + holders a (MultisetPool._inUse s)
       = 1) ∧
  length (live (MultisetPool._available s))
    + length (live (MultisetPool._inUse s)) = length addrs ∧
  length (MultisetPool._available s) = length addrs ∧
  length (MultisetPool._inUse s) = length addrs.
Proof.
  intros Hfresh Hreach.
  pose proof (MultisetPool_reaches_tracked addrs Hfresh _ _ Hreach) as Ht.
  split_and!; [|by eapply tracked_count|apply Ht|apply Ht].
  intros a Ha. assert (a ≠ nullptr) as Hnz.
  { intros ->. by destruct Hfresh. }
  rewrite <- (holders_live a (MultisetPool._available s)) by done.
  rewrite <- (holders_live a (MultisetPool._inUse s)) by done.
  rewrite <- holders_app.
  rewrite (holders_Permutation a _ _ (tracked_split _ _ _ _ Ht)).
  apply holders_NoDup; [apply Hfresh|done].
Qed.

(** X12: from construction, the multiset-based pool hands out the instances
    in the order of their addresses, whatever the order of construction:
    [n] calls of acquire() return the [n] lowest addresses in ascending
    order; after N calls the next returns [nullptr]. *)
Theorem MultisetPool_acquires_in_address_order (addrs : list nat) (n : nat) :
  fresh_addrs addrs → n ≤ length addrs →
  ∃ rs s, MultisetPool_acquire_n n (MultisetPool.Pool addrs) = Ok (rs, s) ∧
    length rs = n ∧ StronglySorted lt rs ∧
    rs ++ live (MultisetPool._available s) ≡ₚ addrs ∧
    (∀ r a, r ∈ rs → a ∈ live (MultisetPool._available s) → r < a) ∧
    (n = length addrs → MultisetPool.acquire s = Ok (nullptr, s)).
Proof.
  intros Hfresh Hn.
  destruct (MultisetPool_acquire_n_reaches addrs Hfresh n []
              (MultisetPool.Pool addrs))
    as (rs & s & Hrun & Hlen & Hsorted & Hperm & Hbelow & Hreach & Hout).
  { constructor. }
  { simpl. lia. }
  exists rs, s. split_and!; [done..| |done|].
  - rewrite <- Hperm. simpl. unfold live.
    rewrite multiset_fill_Permutation, app_nil_r. fold (live addrs).
    rewrite live_all; [done|apply Hfresh].
  - intros ->. eapply MultisetPool_full_exhausted; [done..|]. by rewrite Hout.
Qed.

(** X13: on the multiset-based pool, two calls of acquire() that returned
    the same non-null reference have a release() of it between them. *)
Theorem MultisetPool_no_aliasing (addrs : list nat) h s :
  fresh_addrs addrs → MultisetPool.reaches addrs h s →
  NoDup (outstanding h) ∧
  ∀ h3 h2 h1 r,
    h = h3 ++ Acquired r :: h2 ++ Acquired r :: h1 → r ≠ nullptr →
    Released r ∈ h2.
Proof.
  intros Hfresh Hreach. split.
  { eapply tracked_outstanding_NoDup; [done|].
    by apply (MultisetPool_reaches_tracked addrs Hfresh _ _ Hreach). }
  intros h3 h2 h1 r -> Hr.
  apply MultisetPool_reaches_earlier in Hreach as [s1 Hreach].
  inversion Hreach as [|h' s0 r' s' Hreach0 Hacq|]; subst.
  destruct (decide (Released r ∈ h2)) as [|Hnot]; [done|exfalso].
  pose proof (MultisetPool_reaches_tracked addrs Hfresh _ _ Hreach0) as Ht.
  pose proof (tracked_live_NoDup addrs Hfresh _ _ _ Ht) as Hnd.
  apply NoDup_app in Hnd as (_ & Hdisj & _).
  apply (Hdisj r).
  - by eapply MultisetPool_acquire_available.
  - rewrite (tracked_loans _ _ _ _ Ht). by apply outstanding_since.
Qed.

(** X14: on the multiset-based pool, a sequence of calls that passes no
    null pointer to release() runs to its end without an erase through an
    end iterator; and in every run that reaches its end, every non-null
    reference acquired is one of the N instances and each acquire() that
    was called with fewer than N loans outstanding returned an instance,
    not [nullptr]. *)
Theorem MultisetPool_within_capacity (addrs : list nat) (cs : list call) :
  fresh_addrs addrs →
  (Forall (λ c, c ≠ Release nullptr) cs →
     ∃ h s, MultisetPool.run cs [] (MultisetPool.Pool addrs) = Ok (h, s)) ∧
  (∀ h s, MultisetPool.run cs [] (MultisetPool.Pool addrs) = Ok (h, s) →
     (∀ r, Acquired r ∈ h → r ≠ nullptr → r ∈ addrs) ∧
     (∀ h2 r h1, h = h2 ++ Acquired r :: h1 →
        length (outstanding h1) < length addrs → r ≠ nullptr) ∧
     (never_exceeds (length addrs) h → ∀ r, Acquired r ∈ h → r ≠ nullptr)).
Proof.
  intros Hfresh. split.
  - intros Hcs.
    destruct (MultisetPool_run_total addrs Hfresh cs [] (MultisetPool.Pool addrs))
      as (h & s & Hrun & _); [constructor|done|]. eauto.
  - intros h s Hrun.
    assert (MultisetPool.reaches addrs h s) as Hreach.
    { eapply MultisetPool_run_reaches; [|exact Hrun]. constructor. }
    split_and!.
    + intros r. by eapply MultisetPool_acquired_owned.
    + intros h2 r h1 -> Hlt. by eapply MultisetPool_acquire_under_capacity.
    + intros Hne r. by eapply MultisetPool_never_exhausted.
Qed.

(** X15: on the multiset-based pool, acquire() calls no reset() and leaves
    the instances as they are; release() of a lent instance calls reset()
    once, on that instance; the calls of reset() of a history are its
    releases of lent references. *)
Theorem MultisetPool_reset_at_release (addrs : list nat) h s :
  fresh_addrs addrs → MultisetPool.reaches addrs h s →
  (∃ r s', MultisetPool.acquire s = Ok (r, s') ∧
     MultisetPool.resets s' = MultisetPool.resets s ∧
     MultisetPool.heap s' = MultisetPool.heap s) ∧
  (∀ obj, obj ≠ nullptr → obj ∈ MultisetPool._inUse s →
     ∃ s', MultisetPool.release obj s = Ok s' ∧
       MultisetPool.resets s' = obj :: MultisetPool.resets s ∧
       MultisetPool.heap s' = alter reset obj (MultisetPool.heap s)) ∧
  MultisetPool.resets s = returned_loans h.
Proof.
  intros Hfresh Hreach.
  pose proof (MultisetPool_reaches_tracked addrs Hfresh _ _ Hreach) as Ht.
  split_and!.
  - destruct (MultisetPool_acquire_cases addrs _ _ Ht)
      as [[_ Heq]|(i & mem & j & _ & _ & Heq)]; eauto.
  - intros obj Hobj Hin.
    destruct (MultisetPool_release_cases addrs _ _ obj Ht)
      as [[? _]|[(? & _)|(_ & i & j & _ & _ & Heq)]]; [done..|]. eauto.
  - by eapply MultisetPool_resets.
Qed.

(** X16: on the multiset-based pool, release(r) of a lent instance followed
    at once by acquire() returns the lower of [r] and the lowest available
    address: [r] itself exactly when no available instance has a lower
    address. *)
Theorem MultisetPool_release_then_acquire (addrs : list nat) h s r :
  fresh_addrs addrs → MultisetPool.reaches addrs h s →
  r ≠ nullptr → r ∈ MultisetPool._inUse s →
  ∃ s1 r' s2,
    MultisetPool.release r s = Ok s1 ∧ MultisetPool.acquire s1 = Ok (r', s2) ∧
    r' ≤ r ∧
    (∀ a, a ∈ live (MultisetPool._available s) → r' ≤ a) ∧
    (r' = r ∨ r' ∈ live (MultisetPool._available s)) ∧
    ((∀ a, a ∈ live (MultisetPool._available s) → r < a) → r' = r).
Proof.
  intros Hfresh Hreach Hr Hin.
  pose proof (MultisetPool_reaches_tracked addrs Hfresh _ _ Hreach) as Ht.
  destruct (MultisetPool_release_cases addrs _ _ r Ht)
    as [[? _]|[(? & _)|(_ & i & j & Hi & Hj & Hrel)]]; [done..|].
  pose proof (MultisetPool.reaches_release _ _ _ _ _ Hreach Hrel) as Hreach1.
  apply list_find_Some in Hj as (Hj & _).
  assert (live (MultisetPool._available
                  (MultisetPool.mk
                     (multiset_insert r (multiset_erase j (MultisetPool._available s)))
                     (multiset_insert nullptr (multiset_erase i (MultisetPool._inUse s)))
                     (alter reset r (MultisetPool.heap s))
                     (r :: MultisetPool.resets s)))
          ≡ₚ r :: live (MultisetPool._available s)) as Hput.
  { simpl. eapply live_put; [done..|]. apply multiset_erase_insert_Permutation. }
  destruct (MultisetPool_acquire_total addrs Hfresh _ _ Hreach1)
    as (r' & s2 & Hacq & _).
  assert (r' ≠ nullptr) as Hr'.
  { intros ->.
    pose proof (MultisetPool_reaches_tracked addrs Hfresh _ _ Hreach1) as Ht1.
    destruct (MultisetPool_acquire_cases addrs _ _ Ht1)
      as [[Hnil _]|(i' & mem & j' & Hi' & _ & Heq)].
    - rewrite Hnil in Hput. by apply Permutation_nil_cons in Hput.
    - rewrite Heq in Hacq. simplify_eq.
      by apply find_live_Some in Hi' as (_ & ? & _). }
  destruct (MultisetPool_acquire_available addrs Hfresh _ _ _ _ Hreach1 Hacq Hr')
    as (Hin' & Hlow & _).
  rewrite Hput in Hin'.
  assert (∀ a, a ∈ r :: live (MultisetPool._available s) → r' ≤ a) as Hlow'.
  { intros a Ha. apply Hlow. by rewrite Hput. }
  eexists _, r', s2. split_and!; [exact Hrel|exact Hacq| | | |].
  - apply Hlow'. by left.
  - intros a Ha. apply Hlow'. by right.
  - by apply elem_of_cons in Hin'.
  - intros Hbelow. apply elem_of_cons in Hin' as [?|Hin']; [done|].
    assert (r' ≤ r) by (apply Hlow'; by left).
    specialize (Hbelow r' Hin'). lia.
Qed.

(** X17: on the multiset-based pool with an instance available, acquire()
    followed by release() of the reference it returned gives both
    multisets back as they were; the instance was reset once. *)
Theorem MultisetPool_acquire_then_release (addrs : list nat) h s :
  fresh_addrs addrs → MultisetPool.reaches addrs h s →
  length (outstanding h) < length addrs →
  ∃ r s1 s2,
    MultisetPool.acquire s = Ok (r, s1) ∧ r ≠ nullptr ∧
    MultisetPool.release r s1 = Ok s2 ∧
    MultisetPool._available s2 = MultisetPool._available s ∧
    MultisetPool._inUse s2 = MultisetPool._inUse s ∧
    MultisetPool.resets s2 = r :: MultisetPool.resets s ∧
    MultisetPool.heap s2 = alter reset r (MultisetPool.heap s).
Proof.
  intros Hfresh Hreach Hlt.
  pose proof (MultisetPool_reaches_tracked addrs Hfresh _ _ Hreach) as Ht.
  destruct (MultisetPool_acquire_cases addrs _ _ Ht)
    as [[Hnil _]|(i & r & j & Hi & Hj & Hacq)].
  { pose proof (tracked_count addrs _ _ _ Ht) as Hc.
    rewrite Hnil, (tracked_loans _ _ _ _ Ht) in Hc. simpl in Hc. lia. }
  apply find_live_Some in Hi as (Hi & Hr & _).
  apply list_find_Some in Hj as (Hj & _).
  pose proof (MultisetPool.reaches_acquire _ _ _ _ _ Hreach Hacq) as Hreach1.
  pose proof (MultisetPool_reaches_tracked addrs Hfresh _ _ Hreach1) as Ht1.
  destruct (MultisetPool_release_cases addrs _ _ r Ht1)
    as [[Hnotin _]|[(? & _)|(_ & i' & j' & Hi' & Hj' & Hrel)]]; [|done|].
  { destruct Hnotin. simpl.
    rewrite multiset_erase_insert_Permutation. by left. }
  pose proof (MultisetPool.reaches_release _ _ _ _ _ Hreach1 Hrel) as Hreach2.
  apply list_find_Some in Hi' as (Hi' & _).
  apply list_find_Some in Hj' as (Hj' & _). simpl in Hi', Hj'.
  eexists r, _, _. split_and!; [exact Hacq|done|exact Hrel| | |done|done].
  - apply (StronglySorted_unique le).
    + by apply (MultisetPool_reaches_sorted addrs Hfresh _ _ Hreach2).
    + by apply (MultisetPool_reaches_sorted addrs Hfresh _ _ Hreach).
    + simpl. eapply (slots_swap_back _ _ _ i j' r nullptr); [done| |done|];
        apply multiset_erase_insert_Permutation.
  - apply (StronglySorted_unique le).
    + by apply (MultisetPool_reaches_inUse_sorted addrs Hfresh _ _ Hreach2).
    + by apply (MultisetPool_reaches_inUse_sorted addrs Hfresh _ _ Hreach).
    + simpl. eapply (slots_swap_back _ _ _ j i' nullptr r); [done| |done|];
        apply multiset_erase_insert_Permutation.
Qed.

(** X18: [~Pool()] of the multiset-based pool, in a reachable state,
    deletes every one of the N instances once and leaves none. *)
Theorem MultisetPool_dtor_frees_all (addrs : list nat) h s :
  fresh_addrs addrs → MultisetPool.reaches addrs h s →
  MultisetPool_dtor s = Some ∅.
Proof.
  intros Hfresh Hreach. unfold MultisetPool_dtor.
  eapply dtor_tracked; [done| |by eapply MultisetPool_heap_dom].
  by apply (MultisetPool_reaches_tracked addrs Hfresh _ _ Hreach).
Qed.

(** X19: on the multiset-based pool, release() of a non-null reference
    that is not outstanding changes nothing; release(nullptr) changes
    nothing when all N instances are lent, and calls reset() through the
    null pointer when fewer are. *)
Theorem MultisetPool_release_not_lent (addrs : list nat) h s :
  fresh_addrs addrs → MultisetPool.reaches addrs h s →
  (∀ obj, obj ≠ nullptr → obj ∉ outstanding h →
     MultisetPool.release obj s = Ok s) ∧
  (length (outstanding h) = length addrs →
     MultisetPool.release nullptr s = Ok s) ∧
  (length (outstanding h) < length addrs →
     MultisetPool.release nullptr s = Fault NullMemberCall).
Proof.
  intros Hfresh Hreach.
  pose proof (MultisetPool_reaches_tracked addrs Hfresh _ _ Hreach) as Ht.
  split_and!.
  - intros obj Hobj Hnot. apply MultisetPool_release_not_in_use. intros Hin.
    apply Hnot. rewrite <- (tracked_loans _ _ _ _ Ht). by apply elem_of_live.
  - intros Hlen. apply MultisetPool_release_not_in_use, live_full.
    by rewrite (tracked_loans _ _ _ _ Ht), (tracked_inUse_length _ _ _ _ Ht).
  - intros Hlt. apply MultisetPool_release_nullptr.
    destruct (find_null_Some (MultisetPool._inUse s)) as [j Hj].
    { by rewrite (tracked_loans _ _ _ _ Ht), (tracked_inUse_length _ _ _ _ Ht). }
    apply list_find_Some in Hj as (Hj & _). by eapply list_elem_of_lookup_2.
Qed.

End multiset_pool_more.

(** ** StackVsHeapAlloc.cpp: the test case *)

(** X20: the REQUIREs of the test case hold over the array-based pool,
    whatever the addresses of its two instances. *)
Theorem TEST_CASE_Allocations_holds (p1 p2 : nat) :
  fresh_addrs [p1; p2] →
  TEST_CASE_Allocations (Pool.Pool [p1; p2])
    = Ok [true; true; true; true; true].
Proof.
  intros [Hnd Hnull].
  apply NoDup_cons in Hnd as [Hne _].
  apply not_elem_of_cons in Hnull as [Hp1 Hp2%not_elem_of_cons].
  destruct Hp2 as [Hp2 _].
  assert (p1 ≠ p2) as Hne' by (intros ->; apply Hne; by left).
  unfold TEST_CASE_Allocations, Pool.acquire, Pool.release, Pool.call_reset,
    Pool.mark_available, list_find; simpl.
  repeat (case_decide; simplify_eq/=; try done).
Qed.

(** X21: they hold over the multiset-based pool as well, whatever the
    addresses and whichever of the two instances has the lower one. *)
Theorem TEST_CASE_Allocations_multiset_holds (p1 p2 : nat) :
  fresh_addrs [p1; p2] →
  TEST_CASE_Allocations_multiset (MultisetPool.Pool [p1; p2])
    = Ok [true; true; true; true; true].
Proof.
  intros [Hnd Hnull].
  apply NoDup_cons in Hnd as [Hne _].
  apply not_elem_of_cons in Hnull as [Hp1 Hp2%not_elem_of_cons].
  destruct Hp2 as [Hp2 _].
  assert (p1 ≠ p2) as Hne' by (intros ->; apply Hne; by left).
  unfold TEST_CASE_Allocations_multiset, MultisetPool.acquire,
    MultisetPool.release, MultisetPool.call_reset, MultisetPool.mark_available,
    multiset_erase, list_find; simpl.
  repeat (case_decide; simplify_eq/=; try done; try lia).
Qed.

(** ** The further properties at concrete pools *)

Lemma Pool_dtor_frees_all_witness :
  fresh_addrs [1; 2] ∧ Pool.reaches [1; 2] [Acquired 1] one_lent ∧
  Pool_dtor one_lent = Some ∅.
Proof.
  split_and!; [exact fresh_addrs_1_2|exact one_lent_reaches|].
  apply (Pool_dtor_frees_all [1; 2] _ _ fresh_addrs_1_2 one_lent_reaches).
Defined.

Lemma Pool_loans_are_objects_witness :
  fresh_addrs [1; 2] ∧ Pool.reaches [1; 2] [Acquired 1] one_lent ∧
  dom (Pool.heap one_lent) = list_to_set [1; 2] ∧
  ∀ r, r ∈ outstanding [Acquired 1] → is_Some (Pool.heap one_lent !! r).
Proof.
  split_and!; [exact fresh_addrs_1_2|exact one_lent_reaches|..];
    apply (Pool_loans_are_objects [1; 2] _ _ fresh_addrs_1_2 one_lent_reaches).
Defined.

Lemma Pool_acquire_moves_witness :
  fresh_addrs [1; 2] ∧ Pool.reaches [1; 2] [] (Pool.Pool (OBJ:=BigObject) [1; 2]) ∧
  Pool.acquire (Pool.Pool [1; 2]) = Ok (1, one_lent) ∧ 1 ≠ nullptr ∧
  1 ∈ Pool._available (Pool.Pool (OBJ:=BigObject) [1; 2]) ∧
  (1 ∉ Pool._inUse (Pool.Pool (OBJ:=BigObject) [1; 2])) ∧
  1 ∈ Pool._inUse one_lent ∧ (1 ∉ Pool._available one_lent) ∧
  length (live (Pool._available (Pool.Pool (OBJ:=BigObject) [1; 2])))
    = S (length (live (Pool._available one_lent))) ∧
  length (live (Pool._inUse one_lent))
    = S (length (live (Pool._inUse (Pool.Pool (OBJ:=BigObject) [1; 2])))).
Proof.
  assert (1 ≠ nullptr) as Hne by done.
  split_and!; [exact fresh_addrs_1_2|apply Pool.reaches_Pool|reflexivity|exact Hne|..];
    apply (Pool_acquire_moves [1; 2] [] (Pool.Pool [1; 2]) 1 one_lent
             fresh_addrs_1_2 (Pool.reaches_Pool _) eq_refl Hne).
Defined.

Lemma Pool_release_moves_witness :
  fresh_addrs [1; 2] ∧ Pool.reaches [1; 2] [Acquired 1] one_lent ∧
  1 ≠ nullptr ∧ 1 ∈ Pool._inUse one_lent ∧
  ∃ s', Pool.release 1 one_lent = Ok s' ∧
    (1 ∉ Pool._available one_lent) ∧
    1 ∈ Pool._available s' ∧ (1 ∉ Pool._inUse s') ∧
    length (live (Pool._inUse one_lent)) = S (length (live (Pool._inUse s'))) ∧
    length (live (Pool._available s'))
      = S (length (live (Pool._available one_lent))).
Proof.
  assert (1 ≠ nullptr) as Hne by done.
  assert (1 ∈ Pool._inUse one_lent) as Hin by (simpl; apply elem_of_cons; by left).
  split_and!; [exact fresh_addrs_1_2|exact one_lent_reaches|exact Hne|exact Hin|].
  apply (Pool_release_moves [1; 2] _ _ 1 fresh_addrs_1_2 one_lent_reaches Hne Hin).
Defined.

Lemma Pool_release_ignored_witness :
  fresh_addrs [1; 2] ∧ Pool.reaches [1; 2] [Acquired 1] one_lent ∧
  2 ≠ nullptr ∧ (2 ∉ outstanding [Acquired 1]) ∧
  Pool.release 2 one_lent = Ok one_lent.
Proof.
  assert (2 ≠ nullptr) as Hne by done.
  assert (2 ∉ outstanding [Acquired 1]) as Hnot.
  { apply (bool_decide_unpack _). vm_compute. exact I. }
  split_and!; [exact fresh_addrs_1_2|exact one_lent_reaches|exact Hne|exact Hnot|].
  apply (Pool_release_ignored [1; 2] _ _ 2 fresh_addrs_1_2 one_lent_reaches Hne Hnot).
Defined.

Lemma Pool_release_nullptr_cases_witness :
  fresh_addrs [1; 2] ∧ Pool.reaches [1; 2] [Acquired 2; Acquired 1] all_lent ∧
  (length (outstanding [Acquired 2; Acquired 1]) = 2 →
     Pool.release nullptr all_lent = Ok all_lent).
Proof.
  split_and!; [exact fresh_addrs_1_2|exact all_lent_reaches|].
  apply (Pool_release_nullptr_cases [1; 2] _ _ fresh_addrs_1_2 all_lent_reaches).
Defined.

Lemma Pool_acquires_in_construction_order_witness :
  fresh_addrs [2; 1] ∧ 1 ≤ length [2; 1] ∧
  Pool.acquire_n 1 (Pool.Pool (OBJ:=BigObject) [2; 1])
  = Ok ([2], Pool.mk [nullptr; 1] [2; nullptr] (Pool.heap (Pool.Pool [2; 1])) []).
Proof.
  assert (1 ≤ length [2; 1]) as Hle by (simpl; lia).
  split_and!; [exact fresh_addrs_2_1|exact Hle|].
  apply (Pool_acquires_in_construction_order (OBJ:=BigObject) [2; 1] 1
           fresh_addrs_2_1 Hle).
Defined.

Lemma Pool_acquire_then_release_witness :
  fresh_addrs [1; 2] ∧ Pool.reaches [1; 2] [Acquired 1] one_lent ∧
  length (outstanding [Acquired 1]) < length [1; 2] ∧
  ∃ r s1 s2,
    Pool.acquire one_lent = Ok (r, s1) ∧ r ≠ nullptr ∧
    Pool.release r s1 = Ok s2 ∧
    Pool._inUse s2 = Pool._inUse one_lent ∧
    Pool._available s2 ≡ₚ Pool._available one_lent ∧
    Pool.resets s2 = r :: Pool.resets one_lent ∧
    Pool.heap s2 = alter reset r (Pool.heap one_lent).
Proof.
  assert (length (outstanding [Acquired 1]) < length [1; 2]) as Hlt by (simpl; lia).
  split_and!; [exact fresh_addrs_1_2|exact one_lent_reaches|exact Hlt|].
  apply (Pool_acquire_then_release [1; 2] _ _ fresh_addrs_1_2 one_lent_reaches Hlt).
Defined.

Lemma pool_allocations_within_witness :
  fresh_addrs [1; 2] ∧ 2 ≤ length [1; 2] ∧
  ∃ s, pool_allocations 2 (Pool.Pool [1; 2]) = Some s ∧
    Pool._available s = replicate 2 nullptr ++ drop 2 [1; 2] ∧
    Pool._inUse s = take 2 [1; 2] ++ replicate (length [1; 2] - 2) nullptr ∧
    Pool.resets s = [] ∧
    (∀ a, a ∈ take 2 [1; 2] →
       ∃ o, Pool.heap s !! a = Some o ∧ byteArray o 0 = 97) ∧
    (∀ a, a ∈ drop 2 [1; 2] → Pool.heap s !! a = Some OBJ_ctor).
Proof.
  assert (2 ≤ length [1; 2]) as Hle by (simpl; lia).
  split_and!; [exact fresh_addrs_1_2|exact Hle|].
  apply (pool_allocations_within [1; 2] 2 fresh_addrs_1_2 Hle).
Defined.

Lemma pool_allocations_beyond_witness :
  fresh_addrs [1; 2] ∧ length [1; 2] < 3 ∧
  pool_allocations 3 (Pool.Pool [1; 2]) = None.
Proof.
  assert (length [1; 2] < 3) as Hlt by (simpl; lia).
  split_and!; [exact fresh_addrs_1_2|exact Hlt|].
  apply (pool_allocations_beyond [1; 2] 3 fresh_addrs_1_2 Hlt).
Defined.

Lemma MultisetPool_exactly_one_holder_witness :
  fresh_addrs [1; 2] ∧
  MultisetPool.reaches [1; 2] [Acquired 1] multiset_one_lent ∧
  (∀ a, a ∈ [1; 2] →
     holders a (MultisetPool._available multiset_one_lent)
       + holders a (MultisetPool._inUse multiset_one_lent) = 1).
Proof.
  split_and!; [exact fresh_addrs_1_2|exact multiset_one_lent_reaches|].
  apply (MultisetPool_exactly_one_holder [1; 2] _ _ fresh_addrs_1_2
           multiset_one_lent_reaches).
Defined.

Lemma MultisetPool_acquires_in_address_order_witness :
  fresh_addrs [2; 1] ∧ 2 ≤ length [2; 1] ∧
  ∃ rs s,
    MultisetPool_acquire_n 2 (MultisetPool.Pool (OBJ:=BigObject) [2; 1])
      = Ok (rs, s) ∧
    length rs = 2 ∧ StronglySorted lt rs ∧
    rs ++ live (MultisetPool._available s) ≡ₚ [2; 1] ∧
    (∀ r a, r ∈ rs → a ∈ live (MultisetPool._available s) → r < a) ∧
    (2 = length [2; 1] → MultisetPool.acquire s = Ok (nullptr, s)).
Proof.
  assert (2 ≤ length [2; 1]) as Hle by (simpl; lia).
  split_and!; [exact fresh_addrs_2_1|exact Hle|].
  apply (MultisetPool_acquires_in_address_order (OBJ:=BigObject) [2; 1] 2
           fresh_addrs_2_1 Hle).
Defined.

Lemma multiset_lent_again_reaches :
  MultisetPool.reaches [1; 2] [Acquired 1; Released 1; Acquired 1]
    multiset_lent_again.
Proof.
  eapply MultisetPool.reaches_acquire;
    [eapply MultisetPool.reaches_release;
       [apply multiset_one_lent_reaches|reflexivity]
    |reflexivity].
Defined.

Lemma MultisetPool_no_aliasing_witness :
  fresh_addrs [1; 2] ∧
  MultisetPool.reaches [1; 2] [Acquired 1; Released 1; Acquired 1]
    multiset_lent_again ∧
  NoDup (outstanding [Acquired 1; Released 1; Acquired 1]) ∧
  Released 1 ∈ [Released 1].
Proof.
  split_and!; [exact fresh_addrs_1_2|exact multiset_lent_again_reaches| |].
  - apply (MultisetPool_no_aliasing [1; 2] _ _ fresh_addrs_1_2
             multiset_lent_again_reaches).
  - by apply (proj2 (MultisetPool_no_aliasing [1; 2] _ _ fresh_addrs_1_2
                       multiset_lent_again_reaches)
                [] [Released 1] [] 1).
Defined.

(** The call sequence of the test case, over the multiset-based pool: its
    fourth acquire() is refused with two loans outstanding, and its last
    one is called with one loan outstanding. *)
Lemma MultisetPool_within_capacity_witness :
  fresh_addrs [1; 2] ∧
  MultisetPool.run
      [Acquire; Acquire; Release 1; Acquire; Acquire; Release 2; Acquire] []
      (MultisetPool.Pool (OBJ:=BigObject) [1; 2])
    = Ok ([Acquired 2; Released 2; Acquired nullptr; Acquired 1; Released 1;
           Acquired 2; Acquired 1],
          MultisetPool.mk [nullptr; nullptr] [1; 2]
            (alter reset 2
               (alter reset 1 (MultisetPool.heap (MultisetPool.Pool [1; 2]))))
            [2; 1]) ∧
  length (outstanding
            [Released 2; Acquired nullptr; Acquired 1; Released 1;
             Acquired 2; Acquired 1]) < length [1; 2] ∧
  2 ≠ nullptr.
Proof.
  assert (length (outstanding
                    [Released 2; Acquired nullptr; Acquired 1; Released 1;
                     Acquired 2; Acquired 1]) < length [1; 2]) as Hlt.
  { vm_compute. lia. }
  split_and!; [exact fresh_addrs_1_2|reflexivity|exact Hlt|].
  apply (proj1 (proj2 (proj2 (MultisetPool_within_capacity (OBJ:=BigObject) [1; 2]
                  [Acquire; Acquire; Release 1; Acquire; Acquire; Release 2; Acquire]
                  fresh_addrs_1_2) _ _ eq_refl))
           [] 2
           [Released 2; Acquired nullptr; Acquired 1; Released 1;
            Acquired 2; Acquired 1] eq_refl Hlt).
Defined.

Lemma MultisetPool_reset_at_release_witness :
  fresh_addrs [1; 2] ∧
  MultisetPool.reaches [1; 2] [Acquired 1] multiset_one_lent ∧
  MultisetPool.resets multiset_one_lent = returned_loans [Acquired 1].
Proof.
  split_and!; [exact fresh_addrs_1_2|exact multiset_one_lent_reaches|].
  apply (MultisetPool_reset_at_release [1; 2] _ _ fresh_addrs_1_2
           multiset_one_lent_reaches).
Defined.

Lemma MultisetPool_release_then_acquire_witness :
  fresh_addrs [1; 2] ∧
  MultisetPool.reaches [1; 2] [Acquired 1] multiset_one_lent ∧
  1 ≠ nullptr ∧ 1 ∈ MultisetPool._inUse multiset_one_lent ∧
  ∃ s1 r' s2,
    MultisetPool.release 1 multiset_one_lent = Ok s1 ∧
    MultisetPool.acquire s1 = Ok (r', s2) ∧
    r' ≤ 1 ∧
    (∀ a, a ∈ live (MultisetPool._available multiset_one_lent) → r' ≤ a) ∧
    (r' = 1 ∨ r' ∈ live (MultisetPool._available multiset_one_lent)) ∧
    ((∀ a, a ∈ live (MultisetPool._available multiset_one_lent) → 1 < a) →
     r' = 1).
Proof.
  assert (1 ≠ nullptr) as Hne by done.
  assert (1 ∈ MultisetPool._inUse multiset_one_lent) as Hin.
  { simpl. apply elem_of_cons. right. apply elem_of_cons. by left. }
  split_and!;
    [exact fresh_addrs_1_2|exact multiset_one_lent_reaches|exact Hne|exact Hin|].
  apply (MultisetPool_release_then_acquire [1; 2] _ _ 1 fresh_addrs_1_2
           multiset_one_lent_reaches Hne Hin).
Defined.

Lemma MultisetPool_acquire_then_release_witness :
  fresh_addrs [1; 2] ∧
  MultisetPool.reaches [1; 2] [Acquired 1] multiset_one_lent ∧
  length (outstanding [Acquired 1]) < length [1; 2] ∧
  ∃ r s1 s2,
    MultisetPool.acquire multiset_one_lent = Ok (r, s1) ∧ r ≠ nullptr ∧
    MultisetPool.release r s1 = Ok s2 ∧
    MultisetPool._available s2 = MultisetPool._available multiset_one_lent ∧
    MultisetPool._inUse s2 = MultisetPool._inUse multiset_one_lent ∧
    MultisetPool.resets s2 = r :: MultisetPool.resets multiset_one_lent ∧
    MultisetPool.heap s2 = alter reset r (MultisetPool.heap multiset_one_lent).
Proof.
  assert (length (outstanding [Acquired 1]) < length [1; 2]) as Hlt by (simpl; lia).
  split_and!; [exact fresh_addrs_1_2|exact multiset_one_lent_reaches|exact Hlt|].
  apply (MultisetPool_acquire_then_release [1; 2] _ _ fresh_addrs_1_2
           multiset_one_lent_reaches Hlt).
Defined.

Lemma MultisetPool_dtor_frees_all_witness :
  fresh_addrs [1; 2] ∧
  MultisetPool.reaches [1; 2] [Acquired 1] multiset_one_lent ∧
  MultisetPool_dtor multiset_one_lent = Some ∅.
Proof.
  split_and!; [exact fresh_addrs_1_2|exact multiset_one_lent_reaches|].
  apply (MultisetPool_dtor_frees_all [1; 2] _ _ fresh_addrs_1_2
           multiset_one_lent_reaches).
Defined.

Lemma MultisetPool_release_not_lent_witness :
  fresh_addrs [1; 2] ∧
  MultisetPool.reaches [1; 2] [Acquired 1] multiset_one_lent ∧
  (length (outstanding [Acquired 1]) < length [1; 2] →
     MultisetPool.release nullptr multiset_one_lent = Fault NullMemberCall).
Proof.
  split_and!; [exact fresh_addrs_1_2|exact multiset_one_lent_reaches|].
  apply (MultisetPool_release_not_lent [1; 2] _ _ fresh_addrs_1_2
           multiset_one_lent_reaches).
Defined.

Lemma TEST_CASE_Allocations_holds_witness :
  fresh_addrs [2; 1] ∧
  TEST_CASE_Allocations (Pool.Pool [2; 1]) = Ok [true; true; true; true; true].
Proof.
  split; [exact fresh_addrs_2_1|].
  apply (TEST_CASE_Allocations_holds 2 1 fresh_addrs_2_1).
Defined.

Lemma TEST_CASE_Allocations_multiset_holds_witness :
  fresh_addrs [2; 1] ∧
  TEST_CASE_Allocations_multiset (MultisetPool.Pool [2; 1])
    = Ok [true; true; true; true; true].
Proof.
  split; [exact fresh_addrs_2_1|].
  apply (TEST_CASE_Allocations_multiset_holds 2 1 fresh_addrs_2_1).
Defined.
